(** * Statistics engine of the expense tracker (calc-engine/src/statistics.cpp)

    Shallow embedding of [expense::StatisticsCalculator] and of the three
    result structs of [statistics.hpp].

    - [double] is IEEE 754 binary64: Rocq's primitive [float], whose
      operations round to nearest-even exactly as the C++ operators do.
    - [std::vector<double>] is [list double]; a position ([size_t]) is a
      [nat]; an [int] is a [Z].
    - a thrown [std::invalid_argument] is the [Throw] branch of [outcome].
    - [std::sort] and the traversal order of [std::unordered_map] belong to
      the C++ library, not to this repository: they are parameters of the
      engine ([std_sort], [map_order]).
    - the [to_json] functions and [main] (main.cpp) follow the engine; the
      text of a formatted double and the results of reading standard input
      are parameters as well. *)

From Stdlib Require Import ZArith List Floats Bool Lia Permutation Sorted DecimalString.
From Stdlib Require String.
Import ListNotations String.StringSyntax.

#[local] Set Warnings "-inexact-float".

Open Scope string_scope.
Open Scope float_scope.

(** ** Doubles and conversions *)

Abbreviation double := float (only parsing).

(** [static_cast<double>] of an [int] or [size_t] value (rounds to nearest
    even above 2^53, like the hardware conversion). *)
Definition double_of_Z (z : Z) : double :=
  if (z <? 0)%Z then - of_uint63 (Uint63.of_Z (- z)) else of_uint63 (Uint63.of_Z z).

(** [static_cast<size_t>(std::floor(x))] for a finite [x >= 0]; the cast of a
    negative, infinite or NaN value is undefined in C++ and is given 0 here. *)
Definition floor_size_t (x : double) : Z :=
  match Prim2SF x with
  | S754_finite false m e =>
      if (0 <=? e)%Z then Z.shiftl (Z.pos m) e else Z.shiftr (Z.pos m) (- e)
  | _ => 0%Z
  end.

(** [static_cast<size_t>(std::ceil(x))], same convention. *)
Definition ceil_size_t (x : double) : Z :=
  match Prim2SF x with
  | S754_finite false m e =>
      if (0 <=? e)%Z then Z.shiftl (Z.pos m) e
      else
        let q := Z.shiftr (Z.pos m) (- e) in
        if (Z.shiftl q (- e) =? Z.pos m)%Z then q else (q + 1)%Z
  | _ => 0%Z
  end.

(** [x] is not a NaN: it compares equal to itself. *)
Definition not_nan (x : double) : Prop := (x =? x) = true.

(** ** Exceptions *)

Inductive exception : Type :=
| invalid_argument (what : String.string).

Inductive outcome (A : Type) : Type :=
| Return (a : A)
| Throw (e : exception).

Arguments Return {A} a.
Arguments Throw {A} e.

Definition bind {A B : Type} (c : outcome A) (k : A -> outcome B) : outcome B :=
  match c with
  | Return a => k a
  | Throw e => Throw e
  end.

Notation "x <- c ;; k" := (bind c (fun x => k))
  (at level 61, c at next level, right associativity).

(** ** Result structs (statistics.hpp), with their default member values

    The fields of [StatisticsResult] carry a trailing underscore, since
    [sum], [mean], [median], [mode] and [variance] also name functions. *)

Record StatisticsResult : Type := mkStatisticsResult {
  sum_ : double;
  mean_ : double;
  median_ : double;
  mode_ : double;
  variance_ : double;
  stddev_ : double;
  min_ : double;
  max_ : double;
  range_ : double;
  q1_ : double;
  q3_ : double;
  iqr_ : double;
  count_ : Z
}.

Definition StatisticsResult_default : StatisticsResult :=
  mkStatisticsResult 0 0 0 0 0 0 0 0 0 0 0 0 0%Z.

Record MovingAverageResult : Type := mkMovingAverageResult {
  values : list double;
  current_average : double;
  window_size : Z
}.

Definition MovingAverageResult_default : MovingAverageResult :=
  mkMovingAverageResult [] 0 0%Z.

(** [result.window_size = w;] *)
Definition set_window_size (result : MovingAverageResult) (w : Z) : MovingAverageResult :=
  mkMovingAverageResult (values result) (current_average result) w.

(** [result.values] after the loops have pushed [vals]. *)
Definition set_values (result : MovingAverageResult) (vals : list double)
    : MovingAverageResult :=
  mkMovingAverageResult vals (current_average result) (window_size result).

(** [result.current_average = avg;] *)
Definition set_current_average (result : MovingAverageResult) (avg : double)
    : MovingAverageResult :=
  mkMovingAverageResult (values result) avg (window_size result).

Record CorrelationResult : Type := mkCorrelationResult {
  pearson_coefficient : double;
  r_squared : double;
  strength : String.string;
  direction : String.string
}.

Definition CorrelationResult_default : CorrelationResult :=
  mkCorrelationResult 0 0 String.EmptyString String.EmptyString.

(** [result.strength = s; result.direction = d;] *)
Definition set_labels (result : CorrelationResult) (s d : String.string)
    : CorrelationResult :=
  mkCorrelationResult (pearson_coefficient result) (r_squared result) s d.

(** ** Vector helpers *)

Definition empty {A : Type} (v : list A) : bool :=
  match v with
  | [] => true
  | _ :: _ => false
  end.

Definition size {A : Type} (v : list A) : Z := Z.of_nat (length v).

(** [data[i]]; reading past the end is undefined in C++ and reads 0.0 here. *)
Definition at_ (data : list double) (i : nat) : double := nth i data 0.

(** [values.back()] *)
Definition back (v : list double) : double := last v 0.

(** [data.front()] *)
Definition front (v : list double) : double := hd 0 v.

(** ** Stand-ins for the C++ library, used to run the engine *)

Fixpoint insert_sorted (x : double) (l : list double) : list double :=
  match l with
  | [] => [x]
  | y :: r => if x <? y then x :: l else y :: insert_sorted x r
  end.

(** A sort by [operator<], one admissible behaviour of [std::sort]. *)
Definition insertion_sort (l : list double) : list double :=
  fold_right insert_sorted [] l.

(** A hash map that is traversed oldest entry first. *)
Definition oldest_first (entries : list (double * Z)) : list (double * Z) := entries.

(** A hash map that is traversed newest entry first (libstdc++ links a new
    node in front of the older ones). *)
Definition newest_first (entries : list (double * Z)) : list (double * Z) := rev entries.

(** ** The calculation engine (statistics.cpp) *)

Section Engine.

(** [std::sort(data.begin(), data.end())] *)
Variable std_sort : list double -> list double.

(** The order in which a range-for loop visits the entries of the
    [std::unordered_map<double, int>]; the argument lists the entries in the
    order their keys were inserted. *)
Variable map_order : list (double * Z) -> list (double * Z).

(** *** Basic statistics *)

Definition sum (data : list double) : double :=
  if empty data then 0 else fold_left add data 0.

Definition mean (data : list double) : double :=
  if empty data then 0 else sum data / double_of_Z (size data).

Definition median (data : list double) : double :=
  if empty data then 0
  else
    let data := std_sort data in
    let n := length data in
    if (n mod 2 =? 0)%nat
    then (at_ data (n / 2 - 1) + at_ data (n / 2)) / 2
    else at_ data (n / 2).

(** [frequency[val]++]: the entry whose key compares [==] to [val] is
    incremented; when there is none a new entry with count 1 is added. *)
Fixpoint increment (val : double) (frequency : list (double * Z)) : list (double * Z) :=
  match frequency with
  | [] => [(val, 1%Z)]
  | (key, n) :: rest =>
      if key =? val then (key, (n + 1)%Z) :: rest
      else (key, n) :: increment val rest
  end.

Definition count_frequency (data : list double) : list (double * Z) :=
  fold_left (fun frequency val => increment val frequency) data [].

(** One turn of the loop over the map: a strictly larger count wins. *)
Definition mode_step (st : double * Z) (pair : double * Z) : double * Z :=
  let '(mode_val, max_count) := st in
  if (max_count <? snd pair)%Z then (fst pair, snd pair) else (mode_val, max_count).

Definition mode (data : list double) : double :=
  if empty data then 0
  else
    let frequency := count_frequency data in
    fst (fold_left mode_step (map_order frequency) (at_ data 0, 0%Z)).

(** The sum of squared deviations accumulated by both variance functions. *)
Definition sum_sq_dev (data : list double) (m : double) : double :=
  fold_left (fun sum_sq val => let diff := val - m in sum_sq + diff * diff) data 0.

Definition variance (data : list double) : double :=
  if (size data <? 2)%Z then 0
  else sum_sq_dev data (mean data) / double_of_Z (size data).

Definition sample_variance (data : list double) : double :=
  if (size data <? 2)%Z then 0
  else sum_sq_dev data (mean data) / double_of_Z (size data - 1).

Definition stddev (data : list double) : double := sqrt (variance data).

Definition sample_stddev (data : list double) : double := sqrt (sample_variance data).

Definition percentile (data : list double) (p : double) : outcome double :=
  if empty data then Return 0
  else if (p <? 0) || (100 <? p)
  then Throw (invalid_argument "Percentile must be between 0 and 100")
  else
    let data := std_sort data in
    if p =? 0 then Return (front data)
    else if p =? 100 then Return (back data)
    else
      let index := (p / 100) * double_of_Z (size data - 1) in
      let lower := floor_size_t index in
      let upper := ceil_size_t index in
      if (lower =? upper)%Z then Return (at_ data (Z.to_nat lower))
      else
        let weight := index - double_of_Z lower in
        Return (at_ data (Z.to_nat lower) * (1 - weight)
                + at_ data (Z.to_nat upper) * weight).

(** *** Comprehensive statistics *)

(** [std::minmax_element], as libstdc++ runs it: after the first two
    elements the rest is taken two at a time, the smaller of a pair is tried
    against the minimum and the larger against the maximum; a last single
    element is tried against the minimum and, only when it is not below it,
    against the maximum. The state is the pair of elements the two iterators
    point at. With a NaN among the data the comparisons all fail and the
    scan can pass by the smallest or the largest element. *)
Fixpoint minmax_scan (rest : list double) (mn mx : double) : double * double :=
  match rest with
  | [] => (mn, mx)
  | [first] =>
      if first <? mn then (first, mx)
      else if first <? mx then (mn, mx) else (mn, first)
  | first :: next :: rest =>
      if next <? first
      then minmax_scan rest (if next <? mn then next else mn)
             (if first <? mx then mx else first)
      else minmax_scan rest (if first <? mn then first else mn)
             (if next <? mx then mx else next)
  end.

Definition minmax_element (data : list double) : double * double :=
  match data with
  | [] => (front data, front data)
  | [first] => (first, first)
  | first :: next :: rest =>
      if next <? first then minmax_scan rest next first
      else minmax_scan rest first next
  end.

(** [*minmax.first] and [*minmax.second] *)
Definition min_element (data : list double) : double := fst (minmax_element data).

Definition max_element (data : list double) : double := snd (minmax_element data).

Definition calculate_all (data : list double) : outcome StatisticsResult :=
  if empty data then Return StatisticsResult_default
  else
    let count := size data in
    let sum := sum data in
    let mean := sum / double_of_Z count in
    let median := median data in
    let mode := mode data in
    let variance := variance data in
    let stddev := sqrt variance in
    let min := min_element data in
    let max := max_element data in
    let range := max - min in
    q1 <- percentile data 25 ;;
    q3 <- percentile data 75 ;;
    let iqr := q3 - q1 in
    Return (mkStatisticsResult sum mean median mode variance stddev
              min max range q1 q3 iqr count).

(** *** Moving averages *)

(** The sliding loop: state is [window_sum] and [result.values]. *)
Definition slide_step (data : list double) (window : Z)
    (st : double * list double) (i : nat) : double * list double :=
  let '(window_sum, vals) := st in
  let window_sum := window_sum - at_ data (i - Z.to_nat window) + at_ data i in
  (window_sum, vals ++ [window_sum / double_of_Z window]).

Definition moving_average (data : list double) (window : Z) : MovingAverageResult :=
  let result := set_window_size MovingAverageResult_default window in
  if empty data || (window <=? 0)%Z then result
  else
    let '(window, result) :=
      if (size data <? window)%Z
      then (size data, set_window_size result (size data))
      else (window, result) in
    let window_sum :=
      fold_left (fun s i => s + at_ data i) (seq 0 (Z.to_nat window)) 0 in
    let vals := values result ++ [window_sum / double_of_Z window] in
    let '(_, vals) :=
      fold_left (slide_step data window)
        (seq (Z.to_nat window) (length data - Z.to_nat window))
        (window_sum, vals) in
    set_current_average (set_values result vals)
      (if empty vals then 0 else back vals).

Definition ema_step (data : list double) (alpha : double)
    (vals : list double) (i : nat) : list double :=
  let ema := alpha * at_ data i + (1 - alpha) * back vals in
  vals ++ [ema].

Definition exponential_moving_average (data : list double) (alpha : double)
    : MovingAverageResult :=
  let result := set_window_size MovingAverageResult_default (-1) in
  if empty data || (alpha <=? 0) || (1 <? alpha) then result
  else
    let vals :=
      fold_left (ema_step data alpha) (seq 1 (length data - 1))
        (values result ++ [at_ data 0]) in
    set_current_average (set_values result vals) (back vals).

(** *** Correlation *)

Definition correlation_step (x y : list double) (mean_x mean_y : double)
    (st : double * double * double) (i : nat) : double * double * double :=
  let '(numerator, sum_sq_x, sum_sq_y) := st in
  let dx := at_ x i - mean_x in
  let dy := at_ y i - mean_y in
  (numerator + dx * dy, sum_sq_x + dx * dx, sum_sq_y + dy * dy).

Definition classify_strength (abs_r : double) : String.string :=
  if 0.8 <=? abs_r then "very_strong"
  else if 0.6 <=? abs_r then "strong"
  else if 0.4 <=? abs_r then "moderate"
  else if 0.2 <=? abs_r then "weak"
  else "very_weak".

Definition classify_direction (r : double) : String.string :=
  if 0.1 <? r then "positive"
  else if r <? -0.1 then "negative"
  else "none".

Definition correlation (x y : list double) : CorrelationResult :=
  let result := CorrelationResult_default in
  if negb (size x =? size y)%Z || (size x <? 2)%Z
  then set_labels result "invalid" "none"
  else
    let mean_x := mean x in
    let mean_y := mean y in
    let '(numerator, sum_sq_x, sum_sq_y) :=
      fold_left (correlation_step x y mean_x mean_y) (seq 0 (length x)) (0, 0, 0) in
    let denominator := sqrt (sum_sq_x * sum_sq_y) in
    let r := if denominator =? 0 then 0 else numerator / denominator in
    mkCorrelationResult r (r * r) (classify_strength (abs r)) (classify_direction r).

(** *** Outlier detection *)

Definition outlier_step (data : list double) (lower_bound upper_bound : double)
    (outliers : list nat) (i : nat) : list nat :=
  if (at_ data i <? lower_bound) || (upper_bound <? at_ data i)
  then outliers ++ [i]
  else outliers.

Definition detect_outliers (data : list double) (threshold : double)
    : outcome (list nat) :=
  if (size data <? 4)%Z then Return []
  else
    q1 <- percentile data 25 ;;
    q3 <- percentile data 75 ;;
    let iqr := q3 - q1 in
    let lower_bound := q1 - threshold * iqr in
    let upper_bound := q3 + threshold * iqr in
    Return (fold_left (outlier_step data lower_bound upper_bound)
              (seq 0 (length data)) []).

(** The default argument [threshold = 1.5] of the header. *)
Definition detect_outliers_default (data : list double) : outcome (list nat) :=
  detect_outliers data 1.5.

(** *** Monthly totals *)

(** The inner loop [for (d = 0; d < days && idx < amounts.size(); ++d, ++idx)];
    the first argument counts the turns [days - d] still allowed. *)
Fixpoint month_loop (turns : nat) (amounts : list double) (idx : nat)
    (month_total : double) : double * nat :=
  match turns with
  | O => (month_total, idx)
  | S turns =>
      match nth_error amounts idx with
      | Some a => month_loop turns amounts (S idx) (month_total + a)
      | None => (month_total, idx)
      end
  end.

(** The outer loop over [days_in_months]; state is [idx] and [totals]. *)
Definition months_step (amounts : list double) (st : nat * list double) (days : Z)
    : nat * list double :=
  let '(idx, totals) := st in
  let '(month_total, idx) := month_loop (Z.to_nat days) amounts idx 0 in
  (idx, totals ++ [month_total]).

Definition monthly_totals (amounts : list double) (days_in_months : list Z)
    : list double :=
  if empty amounts || empty days_in_months then []
  else snd (fold_left (months_step amounts) days_in_months (O, [])).

End Engine.

(** ** Reference descriptions used to state the properties *)

(** Total of one bucket, summed from 0.0 in input order. *)
Definition bucket_total (bucket : list double) : double := fold_left add bucket 0.

(** The consecutive buckets cut from [amounts]; a negative size cuts nothing,
    and a bucket that begins after the amounts are used up is empty. *)
Fixpoint buckets (amounts : list double) (bucket_sizes : list Z) : list (list double) :=
  match bucket_sizes with
  | [] => []
  | n :: rest =>
      firstn (Z.to_nat n) amounts :: buckets (skipn (Z.to_nat n) amounts) rest
  end.

(** Monthly totals as the specification words them: no bucket is begun once
    the amounts are used up. *)
Fixpoint monthly_totals_stop_early (amounts : list double) (bucket_sizes : list Z)
    : list double :=
  match bucket_sizes with
  | [] => []
  | n :: rest =>
      match amounts with
      | [] => []
      | _ :: _ =>
          bucket_total (firstn (Z.to_nat n) amounts)
            :: monthly_totals_stop_early (skipn (Z.to_nat n) amounts) rest
      end
  end.

(** Number of elements of [data] that compare [==] to [x]. *)
Fixpoint occurrences (x : double) (data : list double) : Z :=
  match data with
  | [] => 0%Z
  | y :: rest => ((if (x =? y)%float then 1 else 0) + occurrences x rest)%Z
  end.

(** The count the frequency table holds for [x]: the number of elements that
    compare [==] to [x]. A NaN compares [==] to nothing, itself included, so
    every NaN of the input is an entry of its own with count 1. *)
Definition frequency_of (x : double) (data : list double) : Z :=
  if x =? x then occurrences x data else 1%Z.

(** The distinct values of [data] in the order they are first met, two
    values being the same when they compare [==]. *)
Definition first_seen (data : list double) : list double :=
  fold_left (fun keys val => if existsb (fun key => key =? val) keys then keys
                             else keys ++ [val]) data [].

(** No two keys compare [==]. *)
Fixpoint distinct_keys (keys : list double) : Prop :=
  match keys with
  | [] => True
  | key :: rest => Forall (fun key' => (key =? key') = false) rest /\ distinct_keys rest
  end.

(** [x] has a frequency at least that of every element of [data]. *)
Definition most_frequent (data : list double) (x : double) : bool :=
  forallb (fun y => (frequency_of y data <=? frequency_of x data)%Z) data.

(** Mode as the specification words it: of the most frequent values, the one
    met first in the input. *)
Definition mode_earliest (data : list double) : double :=
  match find (most_frequent data) data with
  | Some x => x
  | None => 0
  end.

(** The running window sum after [k] slides over a window of [w] inputs. *)
Fixpoint window_sum_at (data : list double) (w k : nat) : double :=
  match k with
  | O => fold_left add (firstn w data) 0
  | S k' => window_sum_at data w k' - at_ data k' + at_ data (k' + w)
  end.

(** The [w] consecutive inputs that begin at position [k]. *)
Definition window_at (data : list double) (w k : nat) : list double :=
  firstn w (skipn k data).

(** [x] is not above [y]: [y] does not compare below [x]. *)
Definition not_above (x y : double) : Prop := (y <? x) = false.

(** The outlier test of [detect_outliers] for given quartiles. *)
Definition outside_fences (q1 q3 threshold x : double) : bool :=
  (x <? q1 - threshold * (q3 - q1)) || (q3 + threshold * (q3 - q1) <? x).

(** *** Keys that order the doubles

    A double that is not a NaN is ranked by a triple compared
    lexicographically: its class (minus infinity, negative, zero, positive,
    plus infinity), then exponent and mantissa, negated for negative
    numbers. Both zeros have the same key. *)

Definition sf_key (a : spec_float) : option (Z * Z * Z) :=
  match a with
  | S754_nan => None
  | S754_zero _ => Some (0, 0, 0)%Z
  | S754_infinity true => Some (-2, 0, 0)%Z
  | S754_infinity false => Some (2, 0, 0)%Z
  | S754_finite true m e => Some (-1, - e, Z.neg m)%Z
  | S754_finite false m e => Some (1, e, Z.pos m)%Z
  end.

Definition double_key (x : double) : option (Z * Z * Z) := sf_key (Prim2SF x).

Definition lex_compare (a b : Z * Z * Z) : comparison :=
  let '(a1, a2, a3) := a in
  let '(b1, b2, b3) := b in
  match (a1 ?= b1)%Z with
  | Eq => match (a2 ?= b2)%Z with
          | Eq => (a3 ?= b3)%Z
          | c => c
          end
  | c => c
  end.

Definition lex_lt (a b : Z * Z * Z) : Prop :=
  let '(a1, a2, a3) := a in
  let '(b1, b2, b3) := b in
  (a1 < b1 \/ (a1 = b1 /\ (a2 < b2 \/ (a2 = b2 /\ a3 < b3))))%Z.

(** ** Text output and the command line (statistics.cpp [to_json], main.cpp)

    The text a stream insertion produces for a double under [std::fixed]
    and [std::setprecision] belongs to the C++ library: it is the parameter
    [show_fixed]. Integers are written in decimal. What [std::cin >> n] and
    the successive [std::cin >> value] yield is given to [main] as
    [cin_n] and [cin_value]: [None] stands for a failed extraction. *)

Notation "a +++ b" := (String.append a b) (at level 60, right associativity).

(** The double-quote and the line-feed character of the C++ literals. *)
Definition quote : String.string :=
  String.String (Ascii.ascii_of_nat 34) String.EmptyString.

Definition newline : String.string :=
  String.String (Ascii.ascii_of_nat 10) String.EmptyString.

(** [oss << z] for an [int] or a [size_t], and [std::to_string] of an [int]. *)
Definition show_int (z : Z) : String.string := NilZero.string_of_int (Z.to_int z).

(** A member name in double quotes, followed by a colon. *)
Definition json_key (name : String.string) : String.string :=
  quote +++ name +++ quote +++ ":".

(** One turn of a loop that writes the elements of a vector with a comma
    before every element but the first. *)
Definition write_element {A : Type} (show : A -> String.string) (v : list A) (d : A)
    (oss : String.string) (i : nat) : String.string :=
  (oss +++ (if (0 <? i)%nat then "," else String.EmptyString)) +++ show (nth i v d).

Section Program.

Variable std_sort : list double -> list double.
Variable map_order : list (double * Z) -> list (double * Z).

(** [oss << std::fixed << std::setprecision(digits) << x] *)
Variable show_fixed : nat -> double -> String.string.

Definition StatisticsResult_to_json (r : StatisticsResult) : String.string :=
  "{"
  +++ json_key "sum" +++ show_fixed 2 (sum_ r) +++ ","
  +++ json_key "mean" +++ show_fixed 2 (mean_ r) +++ ","
  +++ json_key "median" +++ show_fixed 2 (median_ r) +++ ","
  +++ json_key "mode" +++ show_fixed 2 (mode_ r) +++ ","
  +++ json_key "variance" +++ show_fixed 2 (variance_ r) +++ ","
  +++ json_key "stddev" +++ show_fixed 2 (stddev_ r) +++ ","
  +++ json_key "min" +++ show_fixed 2 (min_ r) +++ ","
  +++ json_key "max" +++ show_fixed 2 (max_ r) +++ ","
  +++ json_key "range" +++ show_fixed 2 (range_ r) +++ ","
  +++ json_key "q1" +++ show_fixed 2 (q1_ r) +++ ","
  +++ json_key "q3" +++ show_fixed 2 (q3_ r) +++ ","
  +++ json_key "iqr" +++ show_fixed 2 (iqr_ r) +++ ","
  +++ json_key "count" +++ show_int (count_ r)
  +++ "}".

Definition MovingAverageResult_to_json (r : MovingAverageResult) : String.string :=
  let oss :=
    "{"
    +++ json_key "window_size" +++ show_int (window_size r) +++ ","
    +++ json_key "current_average" +++ show_fixed 2 (current_average r) +++ ","
    +++ json_key "values" +++ "[" in
  let oss :=
    fold_left (write_element (show_fixed 2) (values r) 0)
      (seq 0 (length (values r))) oss in
  oss +++ "]}".

Definition CorrelationResult_to_json (r : CorrelationResult) : String.string :=
  "{"
  +++ json_key "pearson_coefficient" +++ show_fixed 4 (pearson_coefficient r) +++ ","
  +++ json_key "r_squared" +++ show_fixed 4 (r_squared r) +++ ","
  +++ json_key "strength" +++ quote +++ strength r +++ quote +++ ","
  +++ json_key "direction" +++ quote +++ direction r +++ quote
  +++ "}".

(** *** main.cpp *)

Definition usage_text : String.string :=
  "Expense Calculator v1.0.0" +++ newline
  +++ "Usage: calc_engine [options]" +++ newline
  +++ newline +++ "Options:" +++ newline
  +++ "  --help        Show this help message" +++ newline
  +++ "  --version     Show version information" +++ newline
  +++ newline +++ "Input Format:" +++ newline
  +++ "  First line: number of values (N)" +++ newline
  +++ "  Next N lines: expense amounts (one per line)" +++ newline
  +++ newline +++ "Output: JSON object with statistics" +++ newline.

Definition version_text : String.string :=
  "{" +++ json_key "name" +++ quote +++ "ExpenseCalculator" +++ quote +++ ","
  +++ json_key "version" +++ quote +++ "1.0.0" +++ quote +++ "}" +++ newline.

Definition create_json_output (stats : StatisticsResult)
    (sma ema : MovingAverageResult) (outliers : list nat) : String.string :=
  let oss :=
    "{" +++ newline
    +++ "  " +++ quote +++ "success" +++ quote +++ ": true," +++ newline
    +++ "  " +++ quote +++ "statistics" +++ quote +++ ": "
    +++ StatisticsResult_to_json stats +++ "," +++ newline
    +++ "  " +++ quote +++ "simple_moving_average" +++ quote +++ ": "
    +++ MovingAverageResult_to_json sma +++ "," +++ newline
    +++ "  " +++ quote +++ "exponential_moving_average" +++ quote +++ ": "
    +++ MovingAverageResult_to_json ema +++ "," +++ newline
    +++ "  " +++ quote +++ "outliers" +++ quote +++ ": [" in
  let oss :=
    fold_left (write_element (fun i => show_int (Z.of_nat i)) outliers O)
      (seq 0 (length outliers)) oss in
  oss +++ "]," +++ newline
  +++ "  " +++ quote +++ "outlier_count" +++ quote +++ ": "
  +++ show_int (size outliers) +++ newline
  +++ "}" +++ newline.

Definition create_error_json (message : String.string) : String.string :=
  "{" +++ json_key "success" +++ "false," +++ json_key "error"
  +++ quote +++ message +++ quote +++ "}" +++ newline.

(** What a run of the program leaves behind. *)
Record process_result : Type := mkProcessResult {
  stdout : String.string;
  stderr : String.string;
  exit_status : Z
}.

(** The loop that reads the values: [inl amounts] when [turns] more values
    were read, [inr i] when the extraction of value [i] failed. *)
Fixpoint read_values (cin_value : nat -> option double) (turns : nat) (i : nat)
    (amounts : list double) : list double + nat :=
  match turns with
  | O => inl amounts
  | S turns =>
      match cin_value i with
      | None => inr i
      | Some value => read_values cin_value turns (S i) (amounts ++ [value])
      end
  end.

(** The statements of the [try] block after the values are read. *)
Definition analyse (n : Z) (amounts : list double) : outcome String.string :=
  stats <- calculate_all std_sort map_order amounts ;;
  let window := Z.min 7 n in
  let sma := moving_average amounts window in
  let ema := exponential_moving_average amounts 0.3 in
  outliers <- detect_outliers_default std_sort amounts ;;
  Return (create_json_output stats sma ema outliers).

Definition is_help (arg : String.string) : bool :=
  String.eqb arg "--help" || String.eqb arg "-h".

Definition is_version (arg : String.string) : bool :=
  String.eqb arg "--version" || String.eqb arg "-v".

(** [amounts.reserve(n)] asks for the storage of [n] values at once, before
    any value is read, and throws when it cannot be had ([std::bad_alloc] in
    libstdc++; the [max_size()] of the vector is out of the reach of an
    [int]). Whether it can be had is for the system to say:
    [reserve_throws n] is the [what()] of the exception thrown, [None] when
    the storage is had. Every other allocation of the program is for data
    that has been read, and is taken to succeed. *)
Variable reserve_throws : Z -> option String.string.

(** The [try] block of [main] with its handler, which writes the [what()] of
    any exception thrown in the block and ends with status 1. *)
Definition run (cin_n : option Z) (cin_value : nat -> option double) : process_result :=
  match cin_n with
  | None =>
      mkProcessResult (create_error_json "Failed to read number of values")
        String.EmptyString 1
  | Some n =>
      if (n <=? 0)%Z
      then mkProcessResult (create_error_json "Number of values must be positive")
             String.EmptyString 1
      else
        match reserve_throws n with
        | Some what => mkProcessResult (create_error_json what) String.EmptyString 1
        | None =>
            match read_values cin_value (Z.to_nat n) O [] with
            | inr i =>
                mkProcessResult
                  (create_error_json ("Failed to read value at index "
                                      +++ show_int (Z.of_nat i)))
                  String.EmptyString 1
            | inl amounts =>
                match analyse n amounts with
                | Return output => mkProcessResult output String.EmptyString 0
                | Throw (invalid_argument what) =>
                    mkProcessResult (create_error_json what) String.EmptyString 1
                end
            end
        end
  end.

(** [main]; [argv] is the whole argument vector, program name first. *)
Definition main (argv : list String.string) (cin_n : option Z)
    (cin_value : nat -> option double) : process_result :=
  match argv with
  | _ :: arg :: _ =>
      if is_help arg then mkProcessResult String.EmptyString usage_text 0
      else if is_version arg then mkProcessResult version_text String.EmptyString 0
      else run cin_n cin_value
  | _ => run cin_n cin_value
  end.

End Program.

(** The values the reading loop has read when none of the first [n]
    extractions fails. *)
Definition values_read (cin_value : nat -> option double) (n : nat) : list double :=
  map (fun i => match cin_value i with Some value => value | None => 0 end) (seq 0 n).

(** The option that [main] looks at: its second argument, when there is one. *)
Definition asks_help_or_version (argv : list String.string) : bool :=
  match argv with
  | _ :: arg :: _ => is_help arg || is_version arg
  | _ => false
  end.

(** A stand-in for the formatting of the C++ library, used only to run the
    text functions: it writes the whole part of the magnitude. *)
Definition show_placeholder (digits : nat) (x : double) : String.string :=
  show_int (floor_size_t (abs x)).

(** Three values on the input, all readable, and the same with the second
    one unreadable. *)
Definition three_values (i : nat) : option double := nth i [Some 10; Some 20; Some 60] None.

Definition second_unreadable (i : nat) : option double := nth i [Some 10; None; Some 60] None.

(** Stand-ins for the system's answer to [amounts.reserve(n)]: one that
    always has the storage, and one that has it for no more than 2^20
    values. *)
Definition ample_storage (n : Z) : option String.string := None.

Definition scarce_storage (n : Z) : option String.string :=
  if (1048576 <? n)%Z then Some "std::bad_alloc" else None.

(** ** Comparisons of doubles *)

Lemma SFcompare_antisym (a b : spec_float) :
  SFcompare b a = option_map CompOpp (SFcompare a b).
Proof.
  destruct a as [s1|s1| |s1 m1 e1], b as [s2|s2| |s2 m2 e2]; simpl;
    try reflexivity; try (destruct s1; reflexivity); try (destruct s2; reflexivity);
    try (destruct s1, s2; reflexivity).
  change (PosDef.Pos.compare_cont Eq m1 m2) with (Pos.compare m1 m2).
  change (PosDef.Pos.compare_cont Eq m2 m1) with (Pos.compare m2 m1).
  rewrite (Z.compare_antisym e1 e2), (Pos.compare_antisym m1 m2).
  destruct s1, s2; simpl; try reflexivity;
    destruct (e1 ?= e2)%Z; simpl; try reflexivity;
    destruct (m1 ?= m2)%positive; reflexivity.
Qed.

Lemma SFcompare_Eq_trans (a b c : spec_float) :
  SFcompare a b = Some Eq -> SFcompare b c = Some Eq -> SFcompare a c = Some Eq.
Proof.
  destruct a as [s1|s1| |s1 m1 e1], b as [s2|s2| |s2 m2 e2], c as [s3|s3| |s3 m3 e3];
    simpl; try discriminate; try reflexivity;
    try (destruct s1; discriminate); try (destruct s2; discriminate);
    try (destruct s3; discriminate).
  - destruct s1, s2, s3; simpl; congruence.
  - change (PosDef.Pos.compare_cont Eq m1 m2) with (Pos.compare m1 m2).
    change (PosDef.Pos.compare_cont Eq m2 m3) with (Pos.compare m2 m3).
    change (PosDef.Pos.compare_cont Eq m1 m3) with (Pos.compare m1 m3).
    destruct s1, s2, s3; try discriminate;
      destruct (Z.compare_spec e1 e2); try discriminate;
      destruct (Z.compare_spec e2 e3); try discriminate;
      destruct (Pos.compare_spec m1 m2); try discriminate;
      destruct (Pos.compare_spec m2 m3); try discriminate; subst;
      rewrite Z.compare_refl, Pos.compare_refl; reflexivity.
Qed.

Lemma double_eqb_true_iff (x y : double) :
  (x =? y) = true <-> SFcompare (Prim2SF x) (Prim2SF y) = Some Eq.
Proof.
  rewrite FloatAxioms.eqb_spec. unfold SFeqb.
  destruct (SFcompare (Prim2SF x) (Prim2SF y)) as [[]|]; split; congruence.
Qed.

Lemma double_eqb_sym (x y : double) : (x =? y) = (y =? x).
Proof.
  rewrite !FloatAxioms.eqb_spec. unfold SFeqb.
  rewrite (SFcompare_antisym (Prim2SF x) (Prim2SF y)).
  destruct (SFcompare (Prim2SF x) (Prim2SF y)) as [[]|]; reflexivity.
Qed.

Lemma double_eqb_trans (x y z : double) :
  (x =? y) = true -> (y =? z) = true -> (x =? z) = true.
Proof. rewrite !double_eqb_true_iff. apply SFcompare_Eq_trans. Qed.

Lemma double_ltb_not_leb (x y : double) : (x <? y) = true -> (y <=? x) = false.
Proof.
  rewrite FloatAxioms.ltb_spec, FloatAxioms.leb_spec. unfold SFltb, SFleb.
  rewrite (SFcompare_antisym (Prim2SF x) (Prim2SF y)).
  destruct (SFcompare (Prim2SF x) (Prim2SF y)) as [[]|]; simpl; congruence.
Qed.

Lemma double_leb_not_ltb (x y : double) : (x <=? y) = true -> (y <? x) = false.
Proof.
  rewrite FloatAxioms.ltb_spec, FloatAxioms.leb_spec. unfold SFltb, SFleb.
  rewrite (SFcompare_antisym (Prim2SF x) (Prim2SF y)).
  destruct (SFcompare (Prim2SF x) (Prim2SF y)) as [[]|]; simpl; congruence.
Qed.

Lemma not_nan_Prim2SF (x : double) : not_nan x -> Prim2SF x <> S754_nan.
Proof.
  unfold not_nan. rewrite double_eqb_true_iff. intros H E. rewrite E in H.
  discriminate H.
Qed.

(** Two doubles that are not NaN always compare. *)
Lemma SFcompare_defined (a b : spec_float) :
  a <> S754_nan -> b <> S754_nan -> SFcompare a b <> None.
Proof.
  destruct a, b; simpl; congruence.
Qed.

Lemma double_not_ltb_leb (x y : double) :
  not_nan x -> not_nan y -> (x <? y) = false -> (y <=? x) = true.
Proof.
  intros Hx Hy. rewrite FloatAxioms.ltb_spec, FloatAxioms.leb_spec.
  unfold SFltb, SFleb.
  rewrite (SFcompare_antisym (Prim2SF x) (Prim2SF y)).
  pose proof (SFcompare_defined _ _ (not_nan_Prim2SF x Hx) (not_nan_Prim2SF y Hy)) as H.
  destruct (SFcompare (Prim2SF x) (Prim2SF y)) as [[]|]; simpl; congruence.
Qed.

Lemma double_not_leb_ltb (x y : double) :
  not_nan x -> not_nan y -> (x <=? y) = false -> (y <? x) = true.
Proof.
  intros Hx Hy. rewrite FloatAxioms.ltb_spec, FloatAxioms.leb_spec.
  unfold SFltb, SFleb.
  rewrite (SFcompare_antisym (Prim2SF x) (Prim2SF y)).
  pose proof (SFcompare_defined _ _ (not_nan_Prim2SF x Hx) (not_nan_Prim2SF y Hy)) as H.
  destruct (SFcompare (Prim2SF x) (Prim2SF y)) as [[]|]; simpl; congruence.
Qed.

(** ** The moving averages, with the field assignments carried out *)

Lemma moving_average_eq (data : list double) (window : Z) :
  moving_average data window
  = if empty data || (window <=? 0)%Z
    then mkMovingAverageResult [] 0 window
    else
      let window := if (size data <? window)%Z then size data else window in
      let window_sum :=
        fold_left (fun s i => s + at_ data i) (seq 0 (Z.to_nat window)) 0 in
      let vals := [window_sum / double_of_Z window] in
      let '(_, vals) :=
        fold_left (slide_step data window)
          (seq (Z.to_nat window) (length data - Z.to_nat window))
          (window_sum, vals) in
      mkMovingAverageResult vals (if empty vals then 0 else back vals) window.
Proof.
  unfold moving_average.
  destruct (empty data || (window <=? 0)%Z); [reflexivity|].
  destruct (size data <? window)%Z; cbv zeta;
    unfold set_window_size, MovingAverageResult_default; cbn [values app];
    match goal with
    | |- context [fold_left (slide_step ?d ?w) ?l ?a] =>
        destruct (fold_left (slide_step d w) l a)
    end;
    reflexivity.
Qed.

Lemma exponential_moving_average_eq (data : list double) (alpha : double) :
  exponential_moving_average data alpha
  = if empty data || (alpha <=? 0) || (1 <? alpha)
    then mkMovingAverageResult [] 0 (-1)
    else
      let vals :=
        fold_left (ema_step data alpha) (seq 1 (length data - 1)) [at_ data 0] in
      mkMovingAverageResult vals (back vals) (-1).
Proof.
  unfold exponential_moving_average.
  destruct (empty data || (alpha <=? 0) || (1 <? alpha)); reflexivity.
Qed.

(** ** The repository's unit tests, run on the model *)

Example test_basic_statistics :
  sum [10; 20; 30; 40; 50] = 150 /\
  mean [10; 20; 30; 40; 50] = 30 /\
  median insertion_sort [10; 20; 30; 40; 50] = 30 /\
  median insertion_sort [10; 20; 30; 40] = 25 /\
  variance [10; 20; 30; 40; 50] = 200.
Proof. repeat split. Qed.

Example test_percentile :
  percentile insertion_sort [10; 20; 30; 40; 50] 50 = Return 30 /\
  percentile insertion_sort [10; 20; 30; 40; 50] 25 = Return 20 /\
  percentile insertion_sort [50; 10; 40; 20; 30] 0 = Return 10 /\
  percentile insertion_sort [50; 10; 40; 20; 30] 100 = Return 50.
Proof. repeat split. Qed.

Example test_correlation_positive :
  correlation [1; 2; 3; 4; 5] [2; 4; 6; 8; 10]
  = mkCorrelationResult 1 1 "very_strong" "positive".
Proof. reflexivity. Qed.

(** ** Monthly totals *)

Lemma nth_error_skipn_cons {A : Type} (l : list A) (i : nat) (a : A) :
  nth_error l i = Some a -> skipn i l = a :: skipn (S i) l.
Proof.
  revert i; induction l as [|b l IH]; intros [|i] H; simpl in *; try discriminate.
  - now inversion H.
  - now apply IH.
Qed.

Lemma nth_error_skipn_nil {A : Type} (l : list A) (i : nat) :
  nth_error l i = None -> skipn i l = [].
Proof.
  intros H. apply skipn_all2. now apply nth_error_None.
Qed.

(** The inner loop adds up the next [turns] amounts, fewer when they run out,
    and leaves [idx] just behind them. *)
Lemma month_loop_spec (turns : nat) (amounts : list double) :
  forall idx month_total,
    exists idx',
      month_loop turns amounts idx month_total
      = (fold_left add (firstn turns (skipn idx amounts)) month_total, idx')
      /\ skipn idx' amounts = skipn turns (skipn idx amounts).
Proof.
  induction turns as [|turns IH]; intros idx month_total; simpl.
  - exists idx. split; reflexivity.
  - destruct (nth_error amounts idx) as [a|] eqn:E.
    + rewrite (nth_error_skipn_cons _ _ _ E). simpl.
      apply IH.
    + rewrite (nth_error_skipn_nil _ _ E). simpl.
      exists idx. split; [reflexivity | now apply nth_error_skipn_nil].
Qed.

Lemma months_fold (amounts : list double) (days_in_months : list Z) :
  forall idx totals,
    snd (fold_left (months_step amounts) days_in_months (idx, totals))
    = totals ++ map bucket_total (buckets (skipn idx amounts) days_in_months).
Proof.
  induction days_in_months as [|days rest IH]; intros idx totals; simpl.
  - now rewrite app_nil_r.
  - destruct (month_loop_spec (Z.to_nat days) amounts idx 0) as (idx' & E & Hskip).
    rewrite E, IH, Hskip, <- app_assoc. reflexivity.
Qed.

Lemma buckets_length (amounts : list double) (bucket_sizes : list Z) :
  length (buckets amounts bucket_sizes) = length bucket_sizes.
Proof.
  revert amounts; induction bucket_sizes as [|n rest IH]; intros amounts; simpl;
    [reflexivity | now rewrite IH].
Qed.

Lemma firstn_plus {A : Type} (n m : nat) (l : list A) :
  firstn (n + m) l = firstn n l ++ firstn m (skipn n l).
Proof.
  revert l; induction n as [|n IH]; intros l; [reflexivity|].
  destruct l as [|a l]; simpl.
  - now rewrite firstn_nil.
  - now rewrite IH.
Qed.

(** The buckets are consecutive: glued together they are the front of the
    amounts. *)
Lemma buckets_concat (amounts : list double) (bucket_sizes : list Z) :
  concat (buckets amounts bucket_sizes)
  = firstn (list_sum (map Z.to_nat bucket_sizes)) amounts.
Proof.
  revert amounts; induction bucket_sizes as [|n rest IH]; intros amounts; simpl.
  - reflexivity.
  - now rewrite IH, firstn_plus.
Qed.

Lemma buckets_of_nil (bucket_sizes : list Z) :
  map bucket_total (buckets [] bucket_sizes) = repeat 0 (length bucket_sizes).
Proof.
  induction bucket_sizes as [|n rest IH]; simpl; [reflexivity|].
  rewrite firstn_nil, skipn_nil, IH. reflexivity.
Qed.

(** One total per bucket is the early-stopping list followed by a 0.0 for
    each bucket it left out. *)
Lemma buckets_stop_early (amounts : list double) (bucket_sizes : list Z) :
  map bucket_total (buckets amounts bucket_sizes)
  = monthly_totals_stop_early amounts bucket_sizes
    ++ repeat 0 (length bucket_sizes
                 - length (monthly_totals_stop_early amounts bucket_sizes)).
Proof.
  revert amounts; induction bucket_sizes as [|n rest IH]; intros amounts.
  - reflexivity.
  - destruct amounts as [|a amounts].
    + rewrite buckets_of_nil. reflexivity.
    + cbn [buckets monthly_totals_stop_early map length app Nat.sub].
      rewrite IH. reflexivity.
Qed.

(** C1, as the code has it: [monthly_totals] yields no total when the amounts
    or the bucket sizes are empty; otherwise it yields exactly one total per
    bucket size, the sum of that bucket of consecutive amounts, and a bucket
    that begins after the amounts are used up still gets an entry, 0.0: the
    result is the early-stopping list of totals followed by those zeros. *)
Theorem monthly_totals_one_total_per_bucket
    (amounts : list double) (bucket_sizes : list Z) :
  monthly_totals [] bucket_sizes = [] /\
  monthly_totals amounts [] = [] /\
  (amounts <> [] ->
   monthly_totals amounts bucket_sizes
   = map bucket_total (buckets amounts bucket_sizes) /\
   length (monthly_totals amounts bucket_sizes) = length bucket_sizes /\
   monthly_totals amounts bucket_sizes
   = monthly_totals_stop_early amounts bucket_sizes
     ++ repeat 0 (length bucket_sizes
                  - length (monthly_totals_stop_early amounts bucket_sizes))).
Proof.
  split; [reflexivity|]. split; [now destruct amounts|].
  intros Hne.
  assert (E : monthly_totals amounts bucket_sizes
              = map bucket_total (buckets amounts bucket_sizes)).
  { unfold monthly_totals. destruct amounts as [|a amounts]; [congruence|].
    destruct bucket_sizes as [|n rest]; [reflexivity|].
    cbn [empty orb]. rewrite months_fold. reflexivity. }
  rewrite E. split; [reflexivity|]. split.
  - now rewrite length_map, buckets_length.
  - apply buckets_stop_early.
Qed.

Lemma monthly_totals_one_total_per_bucket_witness :
  [1; 2; 3] <> [] /\
  monthly_totals [1; 2; 3] [2; 2; 2]%Z
  = map bucket_total (buckets [1; 2; 3] [2; 2; 2]%Z).
Proof.
  split; [discriminate|].
  apply (monthly_totals_one_total_per_bucket [1; 2; 3] [2; 2; 2]%Z).
  discriminate.
Defined.

(** C1 as stated fails: three amounts and three buckets of two days give a
    third total, 0.0, although the third bucket begins after the amounts are
    used up; stopping early would give two totals. *)
Lemma monthly_totals_keeps_exhausted_buckets :
  monthly_totals [1; 2; 3] [2; 2; 2]%Z = [3; 3; 0] /\
  monthly_totals_stop_early [1; 2; 3] [2; 2; 2]%Z = [3; 3] /\
  monthly_totals [1; 2; 3] [2; 2; 2]%Z
  <> monthly_totals_stop_early [1; 2; 3] [2; 2; 2]%Z.
Proof.
  split; [reflexivity|]. split; [reflexivity|].
  vm_compute. discriminate.
Qed.

(** ** Percentile *)

(** A percentage from 0 to 100 that is neither bound, asked of non-empty
    data, is answered without an exception. *)
Lemma percentile_returns (std_sort : list double -> list double)
    (data : list double) (p : double) :
  (p <? 0) = false -> (100 <? p) = false ->
  exists q, percentile std_sort data p = Return q.
Proof.
  intros H0 H100. unfold percentile. rewrite H0, H100. cbn [orb].
  destruct (empty data); [now eexists|].
  destruct (p =? 0); [now eexists|].
  destruct (p =? 100); [now eexists|].
  match goal with |- context [if ?c then _ else _] => destruct c end; now eexists.
Qed.

(** C3, as the code has it: on a non-empty sequence a percentage below 0 or
    above 100 throws [std::invalid_argument]; on the empty sequence
    [percentile] returns 0.0 for every percentage, in range or not, because
    the emptiness test comes first. *)
Theorem percentile_invalid_argument (std_sort : list double -> list double)
    (data : list double) (p : double) :
  (data <> [] -> (p <? 0) = true \/ (100 <? p) = true ->
   percentile std_sort data p
   = Throw (invalid_argument "Percentile must be between 0 and 100")) /\
  percentile std_sort [] p = Return 0.
Proof.
  split; [|reflexivity].
  intros Hne Hp. unfold percentile.
  destruct data as [|d data]; [congruence|]. cbn [empty].
  destruct Hp as [Hp|Hp]; rewrite Hp; [reflexivity|].
  now rewrite orb_true_r.
Qed.

Lemma percentile_invalid_argument_witness :
  [10; 20; 30] <> [] /\ (100 <? 101) = true /\
  percentile insertion_sort [10; 20; 30] 101
  = Throw (invalid_argument "Percentile must be between 0 and 100").
Proof.
  split; [discriminate|]. split; [reflexivity|].
  apply (percentile_invalid_argument insertion_sort [10; 20; 30] 101).
  - discriminate.
  - right. reflexivity.
Defined.

(** C3 as stated fails on the empty sequence: the percentage -1 is below 0,
    yet [percentile] returns 0.0 and throws nothing. *)
Lemma percentile_empty_out_of_range :
  (-1 <? 0) = true /\
  percentile insertion_sort [] (-1) = Return 0 /\
  forall e, percentile insertion_sort [] (-1) <> Throw e.
Proof.
  split; [reflexivity|]. split; [reflexivity|]. intros e. discriminate.
Qed.

(** ** Window descriptor *)

(** C4, as the code has it: the exponential series always carries the
    descriptor -1; the simple series carries -1 exactly when it was asked for
    window -1, so the two are told apart for every other window, and for a
    window above 0 the simple descriptor is itself above 0. *)
Theorem window_descriptor_tells_modes_apart
    (data : list double) (alpha : double) (data' : list double) (window : Z) :
  window_size (exponential_moving_average data alpha) = (-1)%Z /\
  (window_size (moving_average data' window) = (-1)%Z <-> window = (-1)%Z) /\
  (window <> (-1)%Z ->
   window_size (exponential_moving_average data alpha)
   <> window_size (moving_average data' window)) /\
  ((0 < window)%Z -> (0 < window_size (moving_average data' window))%Z).
Proof.
  assert (Hema : window_size (exponential_moving_average data alpha) = (-1)%Z).
  { rewrite exponential_moving_average_eq.
    destruct (empty data || (alpha <=? 0) || (1 <? alpha)); reflexivity. }
  assert (Hsma : window_size (moving_average data' window)
                 = if empty data' || (window <=? 0)%Z then window
                   else if (size data' <? window)%Z then size data' else window).
  { rewrite moving_average_eq.
    destruct (empty data' || (window <=? 0)%Z); [reflexivity|]. cbv zeta.
    match goal with
    | |- context [fold_left (slide_step ?d ?w) ?l ?a] =>
        destruct (fold_left (slide_step d w) l a)
    end.
    reflexivity. }
  assert (Hpos : empty data' || (window <=? 0)%Z = false ->
                 (0 < if (size data' <? window)%Z then size data' else window)%Z).
  { destruct data' as [|d data']; cbn [empty orb]; [discriminate|].
    destruct (Z.leb_spec window 0); [discriminate|]. intros _.
    destruct (Z.ltb_spec (size (d :: data')) window); [|lia].
    unfold size. cbn [length]. lia. }
  split; [exact Hema|]. rewrite Hema, Hsma.
  destruct (empty data' || (window <=? 0)%Z) eqn:G.
  - repeat split; congruence || auto.
  - specialize (Hpos eq_refl). apply orb_false_iff in G as [_ G].
    apply Z.leb_gt in G. repeat split; lia.
Qed.

Lemma window_descriptor_tells_modes_apart_witness :
  3%Z <> (-1)%Z /\ (0 < 3)%Z /\
  window_size (exponential_moving_average [10; 20; 30; 40; 50] 0.5)
  <> window_size (moving_average [10; 20; 30; 40; 50] 3) /\
  (0 < window_size (moving_average [10; 20; 30; 40; 50]%float 3))%Z.
Proof.
  split; [lia|]. split; [lia|].
  pose proof (window_descriptor_tells_modes_apart
                [10; 20; 30; 40; 50] 0.5 [10; 20; 30; 40; 50] 3) as (_ & _ & H1 & H2).
  split; [apply H1; lia | apply H2; lia].
Defined.

(** C4 as stated fails: a simple moving average asked for window -1 returns
    the very result an exponential moving average returns for an empty or
    rejected input, descriptor -1 included. *)
Lemma window_descriptor_collision :
  window_size (moving_average [10; 20; 30] (-1))
  = window_size (exponential_moving_average [10; 20; 30] 0.5) /\
  moving_average [10; 20; 30] (-1) = exponential_moving_average [] 0.5.
Proof. split; reflexivity. Qed.

(** ** Correlation *)

(** C7: when the two sequences differ in length, or each has fewer than two
    elements, [correlation] throws nothing and returns coefficient 0.0,
    r-squared 0.0, strength "invalid" and direction "none". *)
Theorem correlation_degenerate (x y : list double) :
  length x <> length y \/ ((length x < 2)%nat /\ (length y < 2)%nat) ->
  correlation x y = mkCorrelationResult 0 0 "invalid" "none".
Proof.
  intros H. unfold correlation, size.
  destruct (Z.eqb_spec (Z.of_nat (length x)) (Z.of_nat (length y))) as [E|E];
    cbn [negb orb]; [|reflexivity].
  destruct (Z.ltb_spec (Z.of_nat (length x)) 2); [reflexivity|].
  exfalso. destruct H as [H|[H _]]; lia.
Qed.

Lemma correlation_degenerate_witness :
  (length [1; 2; 3] <> length [1; 2] \/
   ((length [1; 2; 3] < 2)%nat /\ (length [1; 2] < 2)%nat)) /\
  correlation [1; 2; 3] [1; 2] = mkCorrelationResult 0 0 "invalid" "none".
Proof.
  split; [left; discriminate|].
  apply (correlation_degenerate [1; 2; 3] [1; 2]). left. discriminate.
Defined.

(** ** Comprehensive statistics *)

(** C8: [calculate_all] throws nothing; in its summary range = max - min,
    iqr = q3 - q1 and count is the input length; for the empty input every
    field is 0. *)
Theorem calculate_all_invariants
    (std_sort : list double -> list double)
    (map_order : list (double * Z) -> list (double * Z))
    (data : list double) :
  (exists r,
     calculate_all std_sort map_order data = Return r /\
     range_ r = max_ r - min_ r /\
     iqr_ r = q3_ r - q1_ r /\
     count_ r = Z.of_nat (length data)) /\
  calculate_all std_sort map_order []
  = Return (mkStatisticsResult 0 0 0 0 0 0 0 0 0 0 0 0 0%Z).
Proof.
  split; [|reflexivity].
  unfold calculate_all. destruct data as [|d data].
  - eexists. split; [reflexivity|]. repeat split.
  - cbn [empty].
    destruct (percentile_returns std_sort (d :: data) 25) as [q1 E1]; try reflexivity.
    destruct (percentile_returns std_sort (d :: data) 75) as [q3 E3]; try reflexivity.
    rewrite E1, E3. cbn [bind].
    eexists. split; [reflexivity|]. repeat split.
Qed.

(** ** Outlier detection *)

Lemma outlier_fold (data : list double) (lower_bound upper_bound : double)
    (positions : list nat) :
  forall outliers,
    fold_left (outlier_step data lower_bound upper_bound) positions outliers
    = outliers
      ++ filter (fun i => (at_ data i <? lower_bound) || (upper_bound <? at_ data i))
           positions.
Proof.
  induction positions as [|i positions IH]; intros outliers; simpl.
  - now rewrite app_nil_r.
  - rewrite IH. unfold outlier_step.
    destruct ((at_ data i <? lower_bound) || (upper_bound <? at_ data i)).
    + now rewrite <- app_assoc.
    + reflexivity.
Qed.

(** C9: below four observations [detect_outliers] returns no position and
    throws nothing; from four on it returns, in increasing order, exactly the
    positions whose element is strictly below Q1 - t*IQR or strictly above
    Q3 + t*IQR, Q1 and Q3 being [percentile] at 25 and 75 and IQR = Q3 - Q1. *)
Theorem detect_outliers_positions (std_sort : list double -> list double)
    (data : list double) (threshold : double) :
  ((length data < 4)%nat -> detect_outliers std_sort data threshold = Return []) /\
  ((4 <= length data)%nat ->
   exists q1 q3,
     percentile std_sort data 25 = Return q1 /\
     percentile std_sort data 75 = Return q3 /\
     detect_outliers std_sort data threshold
     = Return (filter (fun i => outside_fences q1 q3 threshold (at_ data i))
                 (seq 0 (length data)))).
Proof.
  unfold detect_outliers, size. split; intros Hlen.
  - destruct (Z.ltb_spec (Z.of_nat (length data)) 4); [reflexivity | lia].
  - destruct (Z.ltb_spec (Z.of_nat (length data)) 4); [lia|].
    destruct (percentile_returns std_sort data 25) as [q1 E1]; try reflexivity.
    destruct (percentile_returns std_sort data 75) as [q3 E3]; try reflexivity.
    exists q1, q3. rewrite E1, E3. cbn [bind].
    split; [reflexivity|]. split; [reflexivity|].
    now rewrite outlier_fold.
Qed.

Lemma detect_outliers_positions_witness :
  (length [10; 20; 30] < 4)%nat /\
  detect_outliers insertion_sort [10; 20; 30] 1.5 = Return [] /\
  (4 <= length [10; 20; 30; 40; 50; 200])%nat /\
  exists q1 q3,
    percentile insertion_sort [10; 20; 30; 40; 50; 200] 25 = Return q1 /\
    percentile insertion_sort [10; 20; 30; 40; 50; 200] 75 = Return q3 /\
    detect_outliers insertion_sort [10; 20; 30; 40; 50; 200] 1.5
    = Return (filter (fun i => outside_fences q1 q3 1.5
                                 (at_ [10; 20; 30; 40; 50; 200] i))
                (seq 0 (length [10; 20; 30; 40; 50; 200]))).
Proof.
  split; [simpl; lia|]. split.
  - apply (detect_outliers_positions insertion_sort [10; 20; 30] 1.5). simpl; lia.
  - split; [simpl; lia|].
    apply (detect_outliers_positions insertion_sort [10; 20; 30; 40; 50; 200] 1.5).
    simpl; lia.
Defined.

(** The documented example: of 10, 20, 30, 40, 50, 200 only position 5 is an
    outlier at the default threshold. *)
Example detect_outliers_example :
  detect_outliers_default insertion_sort [10; 20; 30; 40; 50; 200] = Return [5%nat].
Proof. reflexivity. Qed.

(** ** Exponential moving average *)

Lemma back_at (v : list double) : back v = at_ v (length v - 1).
Proof.
  unfold back, at_. induction v as [|a v IH]; [reflexivity|].
  destruct v as [|b v]; [reflexivity|].
  change (last (a :: b :: v) 0) with (last (b :: v) 0). rewrite IH.
  cbn [length].
  replace (S (S (length v)) - 1)%nat with (S (S (length v) - 1)) by lia.
  reflexivity.
Qed.

(** The series after [k] turns of the loop. *)
Lemma ema_fold_S (data : list double) (alpha : double) (k : nat) :
  fold_left (ema_step data alpha) (seq 1 (S k)) [at_ data 0]
  = let vals := fold_left (ema_step data alpha) (seq 1 k) [at_ data 0] in
    vals ++ [alpha * at_ data (S k) + (1 - alpha) * back vals].
Proof.
  rewrite seq_S, fold_left_app. reflexivity.
Qed.

Lemma ema_fold_spec (data : list double) (alpha : double) (k : nat) :
  let vals := fold_left (ema_step data alpha) (seq 1 k) [at_ data 0] in
  length vals = S k /\
  at_ vals 0 = at_ data 0 /\
  forall i, (i < k)%nat ->
    at_ vals (S i) = alpha * at_ data (S i) + (1 - alpha) * at_ vals i.
Proof.
  induction k as [|k IH].
  - cbn. repeat split. intros i Hi. lia.
  - rewrite ema_fold_S. cbv zeta in *.
    set (vals := fold_left (ema_step data alpha) (seq 1 k) [at_ data 0]) in *.
    destruct IH as (Hlen & H0 & Hrec).
    split; [rewrite length_app, Hlen; simpl; lia|]. split.
    + unfold at_ in *. rewrite app_nth1 by lia. exact H0.
    + intros i Hi. unfold at_ in *.
      destruct (Nat.eq_dec i k) as [->|Hne].
      * rewrite app_nth2 by lia. rewrite Hlen, Nat.sub_diag. cbn [nth].
        rewrite app_nth1 by lia. rewrite back_at, Hlen.
        unfold at_. now rewrite Nat.sub_succ, Nat.sub_0_r.
      * rewrite !app_nth1 by lia. apply Hrec. lia.
Qed.

(** C6, as the code has it: for a non-empty input and a smoothing factor
    with 0 < alpha and alpha <= 1 the series has one value per input
    element, begins with the first observation, and every later value is
    alpha * observation + (1 - alpha) * previous value; for an empty input,
    alpha <= 0 or alpha > 1 the series is empty, and so it is for every
    alpha that is a number and does not satisfy 0 < alpha <= 1. The guard
    of the code rejects by comparison only: every alpha that compares
    neither at most 0 nor above 1, a NaN included, gives on a non-empty
    input one value per element, with the same first value and the same
    rule for the later ones. *)
Theorem exponential_moving_average_series (data : list double) (alpha : double) :
  (data <> [] -> (0 <? alpha) = true -> (alpha <=? 1) = true ->
   let vals := values (exponential_moving_average data alpha) in
   length vals = length data /\
   at_ vals 0 = at_ data 0 /\
   forall i, (S i < length data)%nat ->
     at_ vals (S i) = alpha * at_ data (S i) + (1 - alpha) * at_ vals i) /\
  (data = [] \/ (alpha <=? 0) = true \/ (1 <? alpha) = true ->
   values (exponential_moving_average data alpha) = []) /\
  (not_nan alpha -> ~ ((0 <? alpha) = true /\ (alpha <=? 1) = true) ->
   values (exponential_moving_average data alpha) = []) /\
  (data <> [] -> (alpha <=? 0) = false -> (1 <? alpha) = false ->
   let vals := values (exponential_moving_average data alpha) in
   length vals = length data /\
   at_ vals 0 = at_ data 0 /\
   forall i, (S i < length data)%nat ->
     at_ vals (S i) = alpha * at_ data (S i) + (1 - alpha) * at_ vals i).
Proof.
  assert (Hout : data = [] \/ (alpha <=? 0) = true \/ (1 <? alpha) = true ->
                 values (exponential_moving_average data alpha) = []).
  { rewrite exponential_moving_average_eq.
    intros [->|[H|H]]; [reflexivity| |]; rewrite H.
    - now rewrite orb_true_r.
    - now rewrite orb_true_r. }
  assert (Hin : data <> [] -> (alpha <=? 0) = false -> (1 <? alpha) = false ->
                let vals := values (exponential_moving_average data alpha) in
                length vals = length data /\
                at_ vals 0 = at_ data 0 /\
                forall i, (S i < length data)%nat ->
                  at_ vals (S i) = alpha * at_ data (S i) + (1 - alpha) * at_ vals i).
  { rewrite exponential_moving_average_eq. intros Hne Hlo Hhi. rewrite Hlo, Hhi.
    destruct data as [|d data]; [congruence|]. cbn [empty orb values].
    destruct (ema_fold_spec (d :: data) alpha (length (d :: data) - 1))
      as (Hlen & H0 & Hrec).
    split; [rewrite Hlen; cbn [length]; lia|]. split; [exact H0|].
    intros i Hi. apply Hrec. lia. }
  split; [|split; [exact Hout|split; [|exact Hin]]].
  - intros Hne Hlo Hhi.
    apply (Hin Hne (double_ltb_not_leb _ _ Hlo) (double_leb_not_ltb _ _ Hhi)).
  - intros Hnan Hnot. apply Hout. right.
    destruct (0 <? alpha) eqn:Hlo.
    + right. apply double_not_leb_ltb; [exact Hnan | reflexivity |].
      destruct (alpha <=? 1); [exfalso; now apply Hnot | reflexivity].
    + left. apply double_not_ltb_leb; [reflexivity | exact Hnan | exact Hlo].
Qed.

Lemma exponential_moving_average_series_witness :
  [10; 20; 30; 40; 50] <> [] /\ (0 <? 0.5) = true /\ (0.5 <=? 1) = true /\
  length (values (exponential_moving_average [10; 20; 30; 40; 50] 0.5))
  = length [10; 20; 30; 40; 50] /\
  (@nil double = [] \/ (0.5 <=? 0) = true \/ (1 <? 0.5) = true) /\
  values (exponential_moving_average [] 0.5) = [] /\
  not_nan 1.5 /\ ~ ((0 <? 1.5) = true /\ (1.5 <=? 1) = true) /\
  values (exponential_moving_average [10; 20; 30; 40; 50] 1.5) = [] /\
  (nan <=? 0) = false /\ (1 <? nan) = false /\
  at_ (values (exponential_moving_average [10; 20; 30; 40; 50] nan)) 0
  = at_ [10; 20; 30; 40; 50] 0.
Proof.
  split; [discriminate|]. split; [reflexivity|]. split; [reflexivity|]. split.
  - apply (proj1 (exponential_moving_average_series [10; 20; 30; 40; 50] 0.5));
      [discriminate | reflexivity | reflexivity].
  - split; [now left|]. split.
    + apply (proj1 (proj2 (exponential_moving_average_series [] 0.5))). now left.
    + assert (H : ~ ((0 <? 1.5) = true /\ (1.5 <=? 1) = true))
        by (intros [_ H]; discriminate H).
      split; [reflexivity|]. split; [exact H|]. split.
      * apply (proj1 (proj2 (proj2
                 (exponential_moving_average_series [10; 20; 30; 40; 50] 1.5))));
          [reflexivity | exact H].
      * split; [reflexivity|]. split; [reflexivity|].
        apply (proj2 (proj2 (proj2
                 (exponential_moving_average_series [10; 20; 30; 40; 50] nan))));
          [discriminate | reflexivity | reflexivity].
Defined.

(** C6 as stated fails for a NaN: it is not an alpha with 0 < alpha <= 1,
    yet the guard lets it pass and the series of 10, 20, 30 has three
    values, not none. *)
Lemma exponential_moving_average_nan_alpha :
  ~ ((0 <? nan) = true /\ (nan <=? 1) = true) /\
  values (exponential_moving_average [10; 20; 30] nan) = [10; nan; nan] /\
  values (exponential_moving_average [10; 20; 30] nan) <> [].
Proof.
  split; [intros [H _]; discriminate H|]. split; [reflexivity | discriminate].
Qed.

(** The test of the repository: five observations, alpha 0.5. *)
Example exponential_moving_average_example :
  values (exponential_moving_average [10; 20; 30; 40; 50] 0.5)
  = [10; 15; 22.5; 31.25; 40.625].
Proof. reflexivity. Qed.

(** ** Simple moving average *)

Lemma skipn_at_cons (data : list double) (a : nat) :
  (a < length data)%nat -> skipn a data = at_ data a :: skipn (S a) data.
Proof.
  intros H. apply nth_error_skipn_cons. unfold at_.
  now apply nth_error_nth'.
Qed.

(** Summation over positions [a, a + w) is summation over that slice. *)
Lemma index_sum_slice (data : list double) (w : nat) :
  forall a acc, (a + w <= length data)%nat ->
    fold_left (fun s i => s + at_ data i) (seq a w) acc
    = fold_left add (firstn w (skipn a data)) acc.
Proof.
  induction w as [|w IH]; intros a acc H; [reflexivity|].
  rewrite skipn_at_cons by lia. cbn [seq firstn fold_left].
  apply IH. lia.
Qed.

(** State of the sliding loop after [j] turns. *)
Lemma slide_fold (data : list double) (window : Z) (j : nat) :
  fold_left (slide_step data window) (seq (Z.to_nat window) j)
    (window_sum_at data (Z.to_nat window) 0,
     [window_sum_at data (Z.to_nat window) 0 / double_of_Z window])
  = (window_sum_at data (Z.to_nat window) j,
     map (fun k => window_sum_at data (Z.to_nat window) k / double_of_Z window)
       (seq 0 (S j))).
Proof.
  induction j as [|j IH]; [reflexivity|].
  rewrite seq_S, fold_left_app, IH. cbn [fold_left slide_step].
  rewrite (seq_S (S j)), map_app. cbn [map window_sum_at].
  replace (Z.to_nat window + j - Z.to_nat window)%nat with j by lia.
  replace (Z.to_nat window + j)%nat with (j + Z.to_nat window)%nat by lia.
  reflexivity.
Qed.

Lemma at_map_seq (f : nat -> double) (m k : nat) :
  (k < m)%nat -> at_ (map f (seq 0 m)) k = f k.
Proof.
  intros H. unfold at_.
  rewrite (nth_indep _ 0 (f O)) by (now rewrite length_map, length_seq).
  rewrite map_nth, seq_nth by exact H. reflexivity.
Qed.

(** The mean of a full window is its sum from 0.0 divided by the window. *)
Lemma mean_window_at (data : list double) (w k : nat) :
  (1 <= w)%nat -> (k + w <= length data)%nat ->
  mean (window_at data w k)
  = fold_left add (window_at data w k) 0 / double_of_Z (Z.of_nat w).
Proof.
  intros Hw Hk. unfold mean, sum, size.
  assert (Hlen : length (window_at data w k) = w).
  { unfold window_at. rewrite length_firstn, length_skipn. lia. }
  rewrite Hlen. destruct (window_at data w k); [cbn [length] in Hlen; lia|].
  reflexivity.
Qed.

(** C5, as the code has it: for a non-empty input of length n and a window
    above 0, the effective window w is the smaller of window and n and is
    what the result reports; the series has n - w + 1 values; its k-th value
    is the running window sum after k slides divided by w, where the running
    sum starts as the sum of the first w inputs and each slide subtracts the
    input that leaves and adds the one that enters; the first value is the
    mean of the first w inputs, and a later value is the mean of its window
    whenever the running sum has kept the value of the direct sum; the
    current average is the last value. *)
Theorem moving_average_series (data : list double) (window : Z) :
  data <> [] -> (0 < window)%Z ->
  let w := Z.min window (size data) in
  let r := moving_average data window in
  window_size r = w /\
  length (values r) = (length data - Z.to_nat w + 1)%nat /\
  values r
  = map (fun k => window_sum_at data (Z.to_nat w) k / double_of_Z w)
      (seq 0 (length data - Z.to_nat w + 1)) /\
  at_ (values r) 0 = mean (window_at data (Z.to_nat w) 0) /\
  (forall k, (k + Z.to_nat w <= length data)%nat ->
     window_sum_at data (Z.to_nat w) k
     = fold_left add (window_at data (Z.to_nat w) k) 0 ->
     at_ (values r) k = mean (window_at data (Z.to_nat w) k)) /\
  current_average r = back (values r).
Proof.
  intros Hne Hw. cbv zeta. rewrite moving_average_eq.
  destruct data as [|d data]; [congruence|]. cbn [empty orb].
  destruct (Z.leb_spec window 0); [lia|].
  set (n := length (d :: data)).
  assert (Hw' : (if (size (d :: data) <? window)%Z then size (d :: data) else window)
                = Z.min window (size (d :: data))).
  { destruct (Z.ltb_spec (size (d :: data)) window); lia. }
  rewrite Hw'. set (w := Z.min window (size (d :: data))).
  assert (Hwn : (1 <= Z.to_nat w <= n)%nat).
  { unfold w, size. fold n. assert (1 <= n)%nat by (unfold n; cbn [length]; lia). lia. }
  cbv zeta.
  rewrite (index_sum_slice (d :: data) (Z.to_nat w) 0 0) by (fold n; lia).
  change (fold_left add (firstn (Z.to_nat w) (skipn 0 (d :: data))) 0)
    with (window_sum_at (d :: data) (Z.to_nat w) 0).
  rewrite (slide_fold (d :: data) w (n - Z.to_nat w)).
  replace (n - Z.to_nat w + 1)%nat with (S (n - Z.to_nat w)) by lia.
  cbn [window_size values current_average].
  assert (Hmean : forall k, (k + Z.to_nat w <= n)%nat ->
            window_sum_at (d :: data) (Z.to_nat w) k
            = fold_left add (window_at (d :: data) (Z.to_nat w) k) 0 ->
            at_ (map (fun k => window_sum_at (d :: data) (Z.to_nat w) k / double_of_Z w)
                   (seq 0 (S (n - Z.to_nat w)))) k
            = mean (window_at (d :: data) (Z.to_nat w) k)).
  { intros k Hk E. rewrite at_map_seq by lia.
    rewrite mean_window_at by (fold n; lia).
    rewrite E, Z2Nat.id by lia. reflexivity. }
  split; [reflexivity|]. split; [now rewrite length_map, length_seq|].
  split; [reflexivity|]. split; [|split].
  - apply Hmean; [lia | reflexivity].
  - exact Hmean.
  - rewrite (seq_S (n - Z.to_nat w)), map_app. cbn [map].
    destruct (map _ (seq 0 (n - Z.to_nat w)) ++ [_]) eqn:E;
      [now destruct (map _ (seq 0 (n - Z.to_nat w))) |].
    reflexivity.
Qed.

Lemma moving_average_series_witness :
  [10; 20; 30; 40; 50] <> [] /\ (0 < 3)%Z /\
  values (moving_average [10; 20; 30; 40; 50] 3)
  = map (fun k => window_sum_at [10; 20; 30; 40; 50]
                    (Z.to_nat (Z.min 3 (size [10; 20; 30; 40; 50]%float))) k
                  / double_of_Z (Z.min 3 (size [10; 20; 30; 40; 50]%float)))
      (seq 0 (length [10; 20; 30; 40; 50]
              - Z.to_nat (Z.min 3 (size [10; 20; 30; 40; 50]%float)) + 1)).
Proof.
  split; [discriminate|]. split; [lia|].
  apply (moving_average_series [10; 20; 30; 40; 50] 3); [discriminate | lia].
Defined.

(** The documented example, and a window larger than the input. *)
Example moving_average_example :
  moving_average [10; 20; 30; 40; 50] 3 = mkMovingAverageResult [20; 30; 40] 40 3 /\
  moving_average [10; 20; 30; 40; 50] 9 = mkMovingAverageResult [30] 30 5.
Proof. split; reflexivity. Qed.

(** C5 as stated fails for a value after the first: with inputs 1e16, 1, 1
    and window 2 the running sum is 1e16 (the 1 is rounded away), then
    1e16 - 1e16 + 1 = 1, so the second value is 0.5, while the mean of the
    window 1, 1 that ends at position 2 is 1. *)
Lemma moving_average_drifts_from_mean :
  at_ (values (moving_average [1e16; 1; 1] 2)) 1 = 0.5 /\
  mean (window_at [1e16; 1; 1] 2 1) = 1 /\
  at_ (values (moving_average [1e16; 1; 1] 2)) 1 <> mean (window_at [1e16; 1; 1] 2 1).
Proof.
  split; [reflexivity|]. split; [reflexivity|].
  intros H. vm_compute in H. discriminate H.
Qed.

(** ** Mode *)

(** *** The value returned is one that was put in *)

Lemma increment_keys (val : double) (frequency : list (double * Z)) :
  forall key n, In (key, n) (increment val frequency) ->
    key = val \/ exists n', In (key, n') frequency.
Proof.
  induction frequency as [|[k c] rest IH]; intros key n H; simpl in H.
  - destruct H as [H|[]]. left. congruence.
  - destruct (k =? val).
    + destruct H as [H|H].
      * right. exists c. left. congruence.
      * right. exists n. now right.
    + destruct H as [H|H].
      * right. exists c. left. congruence.
      * destruct (IH _ _ H) as [->|[n' Hn']]; [now left|].
        right. exists n'. now right.
Qed.

Lemma count_frequency_keys_from (data : list double) :
  forall frequency key n,
    In (key, n) (fold_left (fun fr val => increment val fr) data frequency) ->
    In key data \/ exists n', In (key, n') frequency.
Proof.
  induction data as [|d data IH]; intros frequency key n H; simpl in H.
  - right. now exists n.
  - destruct (IH _ _ _ H) as [Hin|[n' Hn']]; [left; now right|].
    destruct (increment_keys _ _ _ _ Hn') as [->|Hold]; [left; now left|now right].
Qed.

Lemma count_frequency_keys (data : list double) (key : double) (n : Z) :
  In (key, n) (count_frequency data) -> In key data.
Proof.
  intros H. destruct (count_frequency_keys_from _ _ _ _ H) as [Hin|[n' []]].
  exact Hin.
Qed.

(** The loop over the map either keeps its initial state, when no count
    exceeds it, or ends on the first entry whose count no other entry exceeds. *)
Lemma mode_scan (entries : list (double * Z)) :
  forall mode_val max_count,
    (Forall (fun e => (snd e <= max_count)%Z) entries /\
     fold_left mode_step entries (mode_val, max_count) = (mode_val, max_count)) \/
    (exists before m n after,
       entries = before ++ (m, n) :: after /\
       fold_left mode_step entries (mode_val, max_count) = (m, n) /\
       (max_count < n)%Z /\
       Forall (fun e => (snd e < n)%Z) before /\
       Forall (fun e => (snd e <= n)%Z) after).
Proof.
  induction entries as [|[k c] rest IH]; intros mode_val max_count.
  - left. split; [constructor | reflexivity].
  - cbn [fold_left mode_step snd fst].
    destruct (Z.ltb_spec max_count c) as [Hlt|Hge].
    + right.
      destruct (IH k c)
        as [(Hall & E)|(before & m & n & after & E1 & E2 & Hn & Hb & Ha)].
      * exists [], k, c, rest.
        split; [reflexivity|]. split; [exact E|]. split; [exact Hlt|].
        split; [constructor | exact Hall].
      * exists ((k, c) :: before), m, n, after. rewrite E1.
        split; [reflexivity|]. split; [rewrite <- E1; exact E2|].
        split; [lia|]. split; [|exact Ha].
        constructor; [exact Hn | exact Hb].
    + destruct (IH mode_val max_count)
        as [(Hall & E)|(before & m & n & after & E1 & E2 & Hn & Hb & Ha)].
      * left. split; [constructor; [exact Hge | exact Hall] | exact E].
      * right. exists ((k, c) :: before), m, n, after. rewrite E1.
        split; [reflexivity|]. split; [rewrite <- E1; exact E2|].
        split; [exact Hn|]. split; [|exact Ha].
        constructor; [cbn [snd]; lia | exact Hb].
Qed.


(** *** The frequency table in closed form *)

Lemma double_eqb_compat (x y z : double) :
  (x =? y) = true -> (x =? z) = (y =? z).
Proof.
  intros Hxy. destruct (x =? z) eqn:Exz, (y =? z) eqn:Eyz; try reflexivity.
  - rewrite double_eqb_sym in Hxy.
    rewrite (double_eqb_trans _ _ _ Hxy Exz) in Eyz. discriminate.
  - rewrite (double_eqb_trans _ _ _ Hxy Eyz) in Exz. discriminate.
Qed.

Lemma occurrences_app (x : double) (l1 l2 : list double) :
  occurrences x (l1 ++ l2) = (occurrences x l1 + occurrences x l2)%Z.
Proof.
  induction l1 as [|y l1 IH]; simpl; [reflexivity|]. rewrite IH. lia.
Qed.

Lemma occurrences_eqb (x y : double) (l : list double) :
  (x =? y) = true -> occurrences x l = occurrences y l.
Proof.
  intros H. induction l as [|z l IH]; simpl; [reflexivity|].
  now rewrite IH, (double_eqb_compat _ _ z H).
Qed.

Lemma occurrences_nonneg (x : double) (l : list double) : (0 <= occurrences x l)%Z.
Proof.
  induction l as [|y l IH]; simpl; [lia|]. destruct (x =? y); lia.
Qed.

Lemma occurrences_pos (x : double) (l : list double) :
  In x l -> not_nan x -> (1 <= occurrences x l)%Z.
Proof.
  intros Hin Hx. induction l as [|y l IH]; simpl; [destruct Hin|].
  pose proof (occurrences_nonneg x l).
  destruct Hin as [->|Hin].
  - unfold not_nan in Hx. rewrite Hx. lia.
  - specialize (IH Hin). destruct (x =? y); lia.
Qed.

Lemma occurrences_none (x : double) (l : list double) :
  Forall (fun y => (x =? y) = false) l -> occurrences x l = 0%Z.
Proof.
  induction 1 as [|y l Hy _ IH]; simpl; [reflexivity|]. now rewrite Hy, IH.
Qed.

Lemma existsb_false_Forall {A : Type} (f : A -> bool) (l : list A) :
  existsb f l = false -> Forall (fun x => f x = false) l.
Proof.
  induction l as [|a l IH]; simpl; intros H; [constructor|].
  apply orb_false_iff in H as [Ha Hl]. constructor; [exact Ha | now apply IH].
Qed.

Lemma first_seen_snoc (data : list double) (val : double) :
  first_seen (data ++ [val])
  = if existsb (fun key => key =? val) (first_seen data) then first_seen data
    else first_seen data ++ [val].
Proof. unfold first_seen. now rewrite fold_left_app. Qed.

Lemma count_frequency_snoc (data : list double) (val : double) :
  count_frequency (data ++ [val]) = increment val (count_frequency data).
Proof. unfold count_frequency. now rewrite fold_left_app. Qed.

Lemma first_seen_incl (data : list double) (key : double) :
  In key (first_seen data) -> In key data.
Proof.
  induction data as [|val data IH] using rev_ind; [intros []|].
  rewrite first_seen_snoc, in_app_iff.
  destruct (existsb _ _); [now left; apply IH|].
  rewrite in_app_iff. intros [H|H]; [left; now apply IH | now right].
Qed.

Lemma first_seen_covers (data : list double) (x : double) :
  In x data -> not_nan x ->
  exists key, In key (first_seen data) /\ (key =? x) = true.
Proof.
  induction data as [|val data IH] using rev_ind; intros Hin Hx; [destruct Hin|].
  rewrite first_seen_snoc. apply in_app_iff in Hin as [Hin|[<-|[]]].
  - destruct (IH Hin Hx) as (key & Hkey & E). exists key.
    split; [|exact E]. destruct (existsb _ _); [exact Hkey|].
    apply in_app_iff. now left.
  - destruct (existsb _ _) eqn:Ex.
    + apply existsb_exists in Ex as (key & Hkey & E). now exists key.
    + exists val. split; [apply in_app_iff; right; now left | exact Hx].
Qed.

Lemma distinct_keys_snoc (keys : list double) (val : double) :
  distinct_keys keys -> Forall (fun key => (key =? val) = false) keys ->
  distinct_keys (keys ++ [val]).
Proof.
  induction keys as [|key keys IH]; simpl; intros Hd Hf.
  - split; [constructor | exact I].
  - destruct Hd as [Hkey Hd]. inversion_clear Hf as [|? ? Hk Hf'].
    split; [|now apply IH].
    apply Forall_app. split; [exact Hkey|]. constructor; [exact Hk | constructor].
Qed.

Lemma first_seen_distinct (data : list double) : distinct_keys (first_seen data).
Proof.
  induction data as [|val data IH] using rev_ind; [exact I|].
  rewrite first_seen_snoc. destruct (existsb _ _) eqn:Ex; [exact IH|].
  apply distinct_keys_snoc; [exact IH|]. now apply existsb_false_Forall in Ex.
Qed.

(** Incrementing a table with distinct keys: the one key that compares [==]
    to the value gains 1, or the value becomes a new last key with count 1. *)
Lemma increment_map (f : double -> Z) (val : double) (keys : list double) :
  distinct_keys keys ->
  increment val (map (fun key => (key, f key)) keys)
  = if existsb (fun key => key =? val) keys
    then map (fun key => (key, (f key + (if (key =? val)%float then 1 else 0))%Z)) keys
    else map (fun key => (key, f key)) keys ++ [(val, 1%Z)].
Proof.
  induction keys as [|key keys IH]; intros Hd; [reflexivity|].
  destruct Hd as [Hkey Hd]. cbn [map increment existsb].
  destruct (key =? val) eqn:E; cbn [orb].
  - f_equal. apply map_ext_in. intros key' Hin.
    rewrite Forall_forall in Hkey. specialize (Hkey _ Hin).
    rewrite (double_eqb_compat _ _ key' E) in Hkey.
    rewrite double_eqb_sym in Hkey. rewrite Hkey. f_equal. lia.
  - rewrite (IH Hd). destruct (existsb _ keys); cbn [map app].
    + f_equal. f_equal. lia.
    + reflexivity.
Qed.

(** A NaN compares [==] to nothing. *)
Lemma nan_eqb_false (x y : double) : (x =? x) = false -> (x =? y) = false.
Proof.
  intros Hx. destruct (x =? y) eqn:E; [|reflexivity].
  assert (E' : (y =? x) = true) by (now rewrite double_eqb_sym).
  rewrite (double_eqb_trans _ _ _ E E') in Hx. discriminate.
Qed.

Lemma frequency_of_snoc (key val : double) (data : list double) :
  frequency_of key (data ++ [val])
  = (frequency_of key data + (if (key =? val)%float then 1 else 0))%Z.
Proof.
  unfold frequency_of. destruct (key =? key) eqn:E.
  - rewrite occurrences_app. simpl. lia.
  - now rewrite (nan_eqb_false _ val E).
Qed.

Lemma frequency_of_pos (x : double) (data : list double) :
  In x data -> (1 <= frequency_of x data)%Z.
Proof.
  intros Hin. unfold frequency_of. destruct (x =? x) eqn:E; [|lia].
  now apply occurrences_pos.
Qed.

Lemma frequency_of_eqb (x y : double) (data : list double) :
  (x =? y) = true -> frequency_of x data = frequency_of y data.
Proof.
  intros E. unfold frequency_of.
  assert (E' : (y =? x) = true) by (now rewrite double_eqb_sym).
  rewrite (double_eqb_trans _ _ _ E E'), (double_eqb_trans _ _ _ E' E).
  now apply occurrences_eqb.
Qed.

(** A value that no key compares [==] to has not occurred yet. *)
Lemma unseen_occurrences (data : list double) (val : double) :
  existsb (fun key => key =? val) (first_seen data) = false ->
  occurrences val data = 0%Z.
Proof.
  intros Ex. apply occurrences_none, Forall_forall. intros x Hx.
  destruct (val =? x) eqn:Evx; [|reflexivity].
  assert (Exv : (x =? val) = true) by (now rewrite double_eqb_sym).
  destruct (first_seen_covers data x Hx (double_eqb_trans _ _ _ Exv Evx))
    as (key & Hkey & E).
  apply existsb_false_Forall in Ex. rewrite Forall_forall in Ex.
  specialize (Ex _ Hkey). cbv beta in Ex.
  rewrite (double_eqb_trans _ _ _ E Exv) in Ex. discriminate.
Qed.

(** In closed form: the table lists the distinct values in the order they
    are first met, each with its frequency. *)
Lemma count_frequency_closed (data : list double) :
  count_frequency data = map (fun key => (key, frequency_of key data)) (first_seen data).
Proof.
  induction data as [|val data IH] using rev_ind; [reflexivity|].
  rewrite count_frequency_snoc, IH, first_seen_snoc.
  rewrite (increment_map _ _ _ (first_seen_distinct data)).
  destruct (existsb _ _) eqn:Ex.
  - apply map_ext. intros key. now rewrite frequency_of_snoc.
  - rewrite map_app. cbn [map]. f_equal.
    + apply map_ext_in. intros key Hin. rewrite frequency_of_snoc.
      apply existsb_false_Forall in Ex. rewrite Forall_forall in Ex.
      rewrite (Ex _ Hin). f_equal. lia.
    + f_equal. f_equal. unfold frequency_of.
      destruct (val =? val) eqn:E; [|reflexivity].
      rewrite occurrences_app, (unseen_occurrences _ _ Ex). simpl. now rewrite E.
Qed.

Lemma first_seen_nonempty (data : list double) :
  data <> [] -> exists key, In key (first_seen data).
Proof.
  intros Hne. destruct (exists_last Hne) as (front & val & ->).
  rewrite first_seen_snoc. destruct (existsb _ _) eqn:Ex.
  - apply existsb_exists in Ex as (key & Hkey & _). now exists key.
  - exists val. apply in_app_iff. right. now left.
Qed.

Section ModeProperties.

Variable map_order : list (double * Z) -> list (double * Z).

(** What the C++ standard promises of the traversal: it visits every entry
    once. *)
Hypothesis map_order_visits_all : forall entries, Permutation (map_order entries) entries.

Lemma map_order_entry (data : list double) (key : double) (n : Z) :
  In (key, n) (map_order (count_frequency data)) ->
  In key data /\ n = frequency_of key data.
Proof.
  intros H. apply (Permutation_in _ (map_order_visits_all _)) in H.
  split; [now apply (count_frequency_keys _ _ n)|].
  rewrite count_frequency_closed in H. apply in_map_iff in H as (k & E & _).
  congruence.
Qed.

Lemma map_order_has_key (data : list double) (x : double) :
  In x data -> not_nan x ->
  exists key, In (key, frequency_of x data) (map_order (count_frequency data)).
Proof.
  intros Hin Hx. destruct (first_seen_covers data x Hin Hx) as (key & Hkey & E).
  exists key. apply (Permutation_in _ (Permutation_sym (map_order_visits_all _))).
  rewrite count_frequency_closed. apply in_map_iff. exists key.
  split; [|exact Hkey]. now rewrite (frequency_of_eqb _ _ data E).
Qed.

Lemma map_order_nonempty (data : list double) :
  data <> [] ->
  exists key, In key data /\
    In (key, frequency_of key data) (map_order (count_frequency data)).
Proof.
  intros Hne. destruct (first_seen_nonempty data Hne) as (key & Hkey).
  exists key. split; [now apply first_seen_incl|].
  apply (Permutation_in _ (Permutation_sym (map_order_visits_all _))).
  rewrite count_frequency_closed. apply in_map_iff. now exists key.
Qed.

(** C10: the mode of a non-empty sequence is one of its elements, whatever the
    order in which the hash map is traversed. *)
Theorem mode_is_an_input_element (data : list double) :
  data <> [] -> In (mode map_order data) data.
Proof.
  intros Hne. unfold mode. destruct data as [|d data]; [congruence|]. cbn [empty].
  destruct (mode_scan (map_order (count_frequency (d :: data))) (at_ (d :: data) 0) 0)
    as [(_ & E)|(before & m & n & after & E1 & E2 & _)]; rewrite ?E, ?E2; cbn [fst].
  - now left.
  - apply (map_order_entry _ m n). rewrite E1. apply in_elt.
Qed.

(** C2, as the code has it: the mode of a non-empty sequence has the highest
    frequency of all its elements, and of the values with that frequency it
    is the one the traversal of the hash map meets first: every entry met
    before it has a strictly lower frequency. The mode of the empty sequence
    is 0.0. *)
Theorem mode_most_frequent (data : list double) :
  (data <> [] ->
   let m := mode map_order data in
   (forall x, In x data -> (frequency_of x data <= frequency_of m data)%Z) /\
   exists before after,
     map_order (count_frequency data) = before ++ (m, frequency_of m data) :: after /\
     Forall (fun e => (frequency_of (fst e) data < frequency_of m data)%Z) before) /\
  mode map_order [] = 0.
Proof.
  split; [|reflexivity].
  intros Hne. cbv zeta. unfold mode.
  destruct data as [|d data]; [congruence|]. cbn [empty].
  set (dat := d :: data) in *.
  assert (Hd : In d dat) by now left.
  destruct (mode_scan (map_order (count_frequency dat)) (at_ dat 0) 0)
    as [(Hall & _)|(before & m & n & after & E1 & E2 & Hn & Hb & Ha)].
  - exfalso. rewrite Forall_forall in Hall.
    destruct (map_order_nonempty dat Hne) as (key & Hkey & Hin).
    specialize (Hall _ Hin). cbn [snd] in Hall.
    pose proof (frequency_of_pos key dat Hkey). lia.
  - rewrite E2. cbn [fst].
    assert (Hm : In (m, n) (map_order (count_frequency dat)))
      by (rewrite E1; apply in_elt).
    apply map_order_entry in Hm as [Hmin ->].
    split.
    + intros x Hx. destruct (x =? x) eqn:Ex.
      * destruct (map_order_has_key dat x Hx Ex) as (key & Hkey).
        rewrite E1 in Hkey. apply in_app_iff in Hkey as [Hkey|[Hkey|Hkey]].
        -- rewrite Forall_forall in Hb. specialize (Hb _ Hkey). cbn [snd] in Hb. lia.
        -- inversion Hkey. lia.
        -- rewrite Forall_forall in Ha. specialize (Ha _ Hkey). cbn [snd] in Ha. lia.
      * unfold frequency_of at 1. rewrite Ex. lia.
    + exists before, after. split; [exact E1|].
      apply Forall_forall. intros [k c] Hin. cbn [fst].
      assert (Hk : In (k, c) (map_order (count_frequency dat)))
        by (rewrite E1; apply in_app_iff; now left).
      apply map_order_entry in Hk as [_ ->].
      rewrite Forall_forall in Hb. apply (Hb _ Hin).
Qed.

End ModeProperties.

(** *** Insertion-ordered traversal gives the earliest most frequent value *)

Lemma find_snoc {A : Type} (f : A -> bool) (l : list A) (a : A) :
  find f (l ++ [a])
  = match find f l with
    | Some x => Some x
    | None => if f a then Some a else None
    end.
Proof.
  induction l as [|b l IH]; simpl; [reflexivity|].
  destruct (f b); [reflexivity | exact IH].
Qed.

Lemma find_skip {A : Type} (f : A -> bool) (before : list A) (a : A) (after : list A) :
  Forall (fun x => f x = false) before -> f a = true ->
  find f (before ++ a :: after) = Some a.
Proof.
  induction 1 as [|b before Hb _ IH]; simpl; intros Ha.
  - now rewrite Ha.
  - rewrite Hb. now apply IH.
Qed.

(** A test that cannot tell [==] values apart finds the same value among the
    distinct values as in the data. *)
Lemma find_first_seen (P : double -> bool) (data : list double) :
  (forall x y, (x =? y) = true -> P x = P y) ->
  find P (first_seen data) = find P data.
Proof.
  intros HP. induction data as [|val data IH] using rev_ind; [reflexivity|].
  rewrite first_seen_snoc, find_snoc. destruct (existsb _ _) eqn:Ex.
  - rewrite IH. destruct (find P data) eqn:E; [reflexivity|].
    apply existsb_exists in Ex as (key & Hkey & Ekey).
    rewrite <- (HP _ _ Ekey).
    now rewrite (find_none _ _ IH key Hkey).
  - now rewrite find_snoc, IH.
Qed.

(** Were the hash map traversed in insertion order, [mode] would be the
    earliest of the most frequent values, as the specification words it. *)
Lemma mode_oldest_first_earliest (data : list double) :
  data <> [] -> mode oldest_first data = mode_earliest data.
Proof.
  intros Hne. unfold mode, mode_earliest, oldest_first.
  destruct data as [|d data]; [congruence|]. cbn [empty].
  set (dat := d :: data) in *.
  rewrite <- (find_first_seen (most_frequent dat) dat)
    by (intros x y E; unfold most_frequent; now rewrite (frequency_of_eqb x y dat E)).
  destruct (mode_scan (count_frequency dat) (at_ dat 0) 0)
    as [(Hall & _)|(before & m & n & after & E1 & E2 & Hn & Hb & Ha)].
  - exfalso. destruct (first_seen_nonempty dat Hne) as (key & Hkey).
    rewrite count_frequency_closed, Forall_forall in Hall.
    specialize (Hall (key, frequency_of key dat)
                  (in_map (fun k => (k, frequency_of k dat)) _ _ Hkey)).
    pose proof (frequency_of_pos key dat (first_seen_incl _ _ Hkey)).
    cbn [snd] in Hall. lia.
  - rewrite E2. cbn [fst].
    rewrite count_frequency_closed in E1.
    apply map_eq_app in E1 as (kb & rest & EK & Eb & Erest).
    destruct rest as [|k ka]; [discriminate|]. cbn [map] in Erest.
    injection Erest as Ek En Ea. subst k.
    rewrite EK, (find_skip (most_frequent dat) kb m ka); [reflexivity| |].
    + apply Forall_forall. intros x Hx. unfold most_frequent.
      apply not_true_is_false. intros Hall. rewrite forallb_forall in Hall.
      assert (Hm : In m dat)
        by (apply first_seen_incl; rewrite EK; apply in_elt).
      specialize (Hall m Hm). apply Z.leb_le in Hall.
      rewrite Forall_forall in Hb.
      assert (Hin : In (x, frequency_of x dat) before)
        by (rewrite <- Eb; apply (in_map (fun k => (k, frequency_of k dat)) _ _ Hx)).
      specialize (Hb _ Hin). cbn [snd] in Hb. lia.
    + unfold most_frequent. apply forallb_forall. intros x Hx. apply Z.leb_le.
      destruct (x =? x) eqn:Ex; [|unfold frequency_of at 1; rewrite Ex; lia].
      destruct (first_seen_covers dat x Hx Ex) as (key & Hkey & E).
      rewrite <- (frequency_of_eqb key x dat E).
      rewrite EK in Hkey. apply in_app_iff in Hkey as [Hkey|[<-|Hkey]].
      * rewrite Forall_forall in Hb.
        assert (Hin : In (key, frequency_of key dat) before)
          by (rewrite <- Eb; apply (in_map (fun k => (k, frequency_of k dat)) _ _ Hkey)).
        specialize (Hb _ Hin). cbn [snd] in Hb. lia.
      * lia.
      * rewrite Forall_forall in Ha.
        assert (Hin : In (key, frequency_of key dat) after)
          by (rewrite <- Ea; apply (in_map (fun k => (k, frequency_of k dat)) _ _ Hkey)).
        specialize (Ha _ Hin). cbn [snd] in Ha. lia.
Qed.

Lemma newest_first_visits_all (entries : list (double * Z)) :
  Permutation (newest_first entries) entries.
Proof. apply Permutation_sym, Permutation_rev. Defined.

Lemma mode_is_an_input_element_witness :
  (forall entries, Permutation (newest_first entries) entries) /\
  [20; 10; 20; 30; 10] <> [] /\
  In (mode newest_first [20; 10; 20; 30; 10]) [20; 10; 20; 30; 10].
Proof.
  split; [exact newest_first_visits_all|]. split; [discriminate|].
  apply (mode_is_an_input_element newest_first newest_first_visits_all).
  discriminate.
Defined.

Lemma mode_most_frequent_witness :
  (forall entries, Permutation (newest_first entries) entries) /\
  [20; 10; 20; 30; 10; 10] <> [] /\
  forall x, In x [20; 10; 20; 30; 10; 10] ->
    (frequency_of x [20; 10; 20; 30; 10; 10]%float
     <= frequency_of (mode newest_first [20; 10; 20; 30; 10; 10]%float)
          [20; 10; 20; 30; 10; 10]%float)%Z.
Proof.
  split; [exact newest_first_visits_all|]. split; [discriminate|].
  apply (mode_most_frequent newest_first newest_first_visits_all
           [20; 10; 20; 30; 10; 10]).
  discriminate.
Defined.

(** Three occurrences of 10 against two of 20, in either traversal order. *)
Example mode_example :
  mode oldest_first [20; 10; 20; 30; 10; 10] = 10 /\
  mode newest_first [20; 10; 20; 30; 10; 10] = 10.
Proof. split; reflexivity. Qed.

(** C2 as stated fails on a tie: 1 and 2 occur once each and 1 is inserted
    first, yet a hash map that is traversed newest entry first makes [mode]
    return 2. *)
Lemma mode_tie_follows_map_order :
  (forall entries, Permutation (newest_first entries) entries) /\
  frequency_of 1 [1; 2] = frequency_of 2 [1; 2] /\
  mode_earliest [1; 2] = 1 /\
  mode newest_first [1; 2] = 2 /\
  mode newest_first [1; 2] <> mode_earliest [1; 2].
Proof.
  split; [exact newest_first_visits_all|].
  split; [reflexivity|]. split; [reflexivity|]. split; [reflexivity|].
  intros H. vm_compute in H. discriminate H.
Qed.

(** ** The order of doubles *)

Lemma lex_compare_Lt (a b : Z * Z * Z) : lex_compare a b = Lt <-> lex_lt a b.
Proof.
  destruct a as [[a1 a2] a3], b as [[b1 b2] b3]. unfold lex_compare, lex_lt.
  destruct (Z.compare_spec a1 b1); destruct (Z.compare_spec a2 b2);
    destruct (Z.compare_spec a3 b3); split; intros Hc; try discriminate; try lia;
    try reflexivity.
Qed.

Lemma lex_compare_Eq (a b : Z * Z * Z) : lex_compare a b = Eq <-> a = b.
Proof.
  destruct a as [[a1 a2] a3], b as [[b1 b2] b3]. unfold lex_compare.
  destruct (Z.compare_spec a1 b1); destruct (Z.compare_spec a2 b2);
    destruct (Z.compare_spec a3 b3); split; intros Hc; try discriminate;
    try (inversion Hc; lia); subst; reflexivity.
Qed.

Lemma lex_compare_Gt (a b : Z * Z * Z) : lex_compare a b = Gt <-> lex_lt b a.
Proof.
  destruct a as [[a1 a2] a3], b as [[b1 b2] b3]. unfold lex_compare, lex_lt.
  destruct (Z.compare_spec a1 b1); destruct (Z.compare_spec a2 b2);
    destruct (Z.compare_spec a3 b3); split; intros Hc; try discriminate; try lia;
    try reflexivity.
Qed.

(** [SFcompare] is the lexicographic comparison of the keys. *)
Lemma SFcompare_key (a b : spec_float) :
  SFcompare a b
  = match sf_key a, sf_key b with
    | Some ka, Some kb => Some (lex_compare ka kb)
    | _, _ => None
    end.
Proof.
  destruct a as [s1|s1| |s1 m1 e1], b as [s2|s2| |s2 m2 e2];
    try reflexivity; try (destruct s1; reflexivity); try (destruct s2; reflexivity);
    try (destruct s1, s2; reflexivity).
  destruct s1, s2; try reflexivity. cbn [SFcompare sf_key lex_compare].
  change (PosDef.Pos.compare_cont Eq m1 m2) with (Pos.compare m1 m2).
  change ((-1 ?= -1)%Z) with Eq. cbv iota.
  rewrite Z.compare_opp, (Z.compare_antisym e1 e2).
  destruct (e1 ?= e2)%Z; reflexivity.
Qed.

Lemma double_key_not_nan (x : double) : not_nan x <-> double_key x <> None.
Proof.
  unfold not_nan, double_key. rewrite double_eqb_true_iff, SFcompare_key.
  destruct (sf_key (Prim2SF x)) as [k|]; split; intros H; try congruence.
  f_equal. now apply lex_compare_Eq.
Qed.

Lemma double_ltb_key (x y : double) :
  (x <? y) = true
  <-> exists kx ky, double_key x = Some kx /\ double_key y = Some ky /\ lex_lt kx ky.
Proof.
  rewrite FloatAxioms.ltb_spec. unfold SFltb, double_key. rewrite SFcompare_key.
  destruct (sf_key (Prim2SF x)) as [kx|], (sf_key (Prim2SF y)) as [ky|];
    try (split; [discriminate | intros (? & ? & ? & ? & _); discriminate]).
  destruct (lex_compare kx ky) eqn:E; split; intros H; try discriminate;
    try reflexivity.
  - destruct H as (a & b & Ha & Hb & Hlt). inversion Ha; inversion Hb; subst.
    apply lex_compare_Lt in Hlt. congruence.
  - exists kx, ky. repeat split. now apply lex_compare_Lt.
  - destruct H as (a & b & Ha & Hb & Hlt). inversion Ha; inversion Hb; subst.
    apply lex_compare_Lt in Hlt. congruence.
Qed.

Lemma double_eqb_key (x y : double) :
  (x =? y) = true <-> exists k, double_key x = Some k /\ double_key y = Some k.
Proof.
  rewrite double_eqb_true_iff. unfold double_key. rewrite SFcompare_key.
  destruct (sf_key (Prim2SF x)) as [kx|], (sf_key (Prim2SF y)) as [ky|];
    try (split; [discriminate | intros (? & ? & ?); discriminate]).
  split.
  - intros H. injection H as H. apply lex_compare_Eq in H. subst. now exists ky.
  - intros (k & Hx & Hy). f_equal. apply lex_compare_Eq. congruence.
Qed.

Lemma lex_lt_trans (a b c : Z * Z * Z) : lex_lt a b -> lex_lt b c -> lex_lt a c.
Proof.
  destruct a as [[a1 a2] a3], b as [[b1 b2] b3], c as [[c1 c2] c3].
  unfold lex_lt. lia.
Qed.

Lemma lex_lt_cases (a b : Z * Z * Z) : lex_lt a b \/ a = b \/ lex_lt b a.
Proof.
  destruct a as [[a1 a2] a3], b as [[b1 b2] b3]. unfold lex_lt.
  destruct (Z.lt_total a1 b1) as [|[|]]; destruct (Z.lt_total a2 b2) as [|[|]];
    destruct (Z.lt_total a3 b3) as [|[|]]; subst; auto; try (left; lia); try (right; right; lia).
Qed.

Lemma lex_lt_irrefl (a : Z * Z * Z) : ~ lex_lt a a.
Proof. destruct a as [[a1 a2] a3]. unfold lex_lt. lia. Qed.

Lemma double_ltb_trans (x y z : double) :
  (x <? y) = true -> (y <? z) = true -> (x <? z) = true.
Proof.
  rewrite !double_ltb_key.
  intros (kx & ky & Hx & Hy & H1) (ky' & kz & Hy' & Hz & H2).
  exists kx, kz. repeat split; auto. apply (lex_lt_trans _ ky); congruence.
Qed.

(** Below [y] means below [z] or [z] below... : a number [z] splits every
    strict inequality. *)
Lemma double_ltb_split (x y z : double) :
  (x <? y) = true -> not_nan z -> (x <? z) = true \/ (z <? y) = true.
Proof.
  rewrite !double_ltb_key, double_key_not_nan.
  intros (kx & ky & Hx & Hy & H) Hz.
  destruct (double_key z) as [kz|]; [|congruence].
  destruct (lex_lt_cases kx kz) as [L|[E|L]].
  - left. exists kx, kz. auto.
  - right. exists kz, ky. subst. auto.
  - right. exists kz, ky. repeat split; auto. now apply (lex_lt_trans _ kx).
Qed.

Lemma double_not_ltb_eqb (x y : double) :
  not_nan x -> not_nan y -> (x <? y) = false -> (y <? x) = false ->
  (x =? y) = true.
Proof.
  rewrite !double_key_not_nan. intros Hx Hy Hxy Hyx.
  destruct (double_key x) as [kx|] eqn:Ex; [|congruence].
  destruct (double_key y) as [ky|] eqn:Ey; [|congruence].
  apply double_eqb_key.
  destruct (lex_lt_cases kx ky) as [L|[E|L]].
  - assert (H : (x <? y) = true) by (apply double_ltb_key; exists kx, ky; auto).
    congruence.
  - exists kx. split; congruence.
  - assert (H : (y <? x) = true) by (apply double_ltb_key; exists ky, kx; auto).
    congruence.
Qed.

Lemma double_ltb_irrefl (x : double) : (x <? x) = false.
Proof.
  destruct (x <? x) eqn:E; [|reflexivity].
  apply double_ltb_key in E as (a & b & Ha & Hb & H).
  assert (a = b) by congruence. subst. now apply lex_lt_irrefl in H.
Qed.

(** A NaN is below nothing and nothing is below it. *)
Lemma nan_ltb_false (x y : double) :
  (x =? x) = false -> (x <? y) = false /\ (y <? x) = false.
Proof.
  intros Hx.
  assert (Hk : double_key x = None).
  { destruct (double_key x) eqn:E; [|reflexivity].
    assert (H : not_nan x) by (apply double_key_not_nan; congruence).
    unfold not_nan in H. congruence. }
  split.
  - destruct (x <? y) eqn:E; [|reflexivity].
    apply double_ltb_key in E as (a & b & Ha & _). congruence.
  - destruct (y <? x) eqn:E; [|reflexivity].
    apply double_ltb_key in E as (a & b & _ & Hb & _). congruence.
Qed.

(** ** Further properties of the engine *)

(** *** Percentile: when it throws, and its two ends *)

(** X1: [percentile] throws exactly when the data is not empty and the
    percentage compares below 0 or above 100; what it throws is always the
    same [std::invalid_argument]. A NaN percentage is not rejected. *)
Theorem percentile_throws_iff (std_sort : list double -> list double)
    (data : list double) (p : double) (e : exception) :
  percentile std_sort data p = Throw e
  <-> data <> [] /\ ((p <? 0) = true \/ (100 <? p) = true)
      /\ e = invalid_argument "Percentile must be between 0 and 100".
Proof.
  unfold percentile. destruct data as [|d data]; cbn [empty].
  - split; [discriminate | intros [H _]; congruence].
  - destruct (p <? 0) eqn:H0; cbn [orb].
    + split; [intros H; inversion H; repeat split; auto; discriminate
             | intros (_ & _ & ->); reflexivity].
    + destruct (100 <? p) eqn:H100.
      * split; [intros H; inversion H; repeat split; auto; discriminate
               | intros (_ & _ & ->); reflexivity].
      * split; [|intros (_ & [H|H] & _); discriminate].
        destruct (p =? 0); [discriminate|]. destruct (p =? 100); [discriminate|].
        match goal with |- context [if ?c then _ else _] => destruct c end;
          discriminate.
Qed.

Lemma percentile_throws_iff_witness :
  percentile insertion_sort [10; 20; 30] 101
  = Throw (invalid_argument "Percentile must be between 0 and 100")
  /\ forall e, percentile insertion_sort [10; 20; 30] nan <> Throw e.
Proof.
  split.
  - apply (percentile_throws_iff insertion_sort [10; 20; 30] 101).
    split; [discriminate|]. split; [right; reflexivity | reflexivity].
  - intros e H.
    apply (percentile_throws_iff insertion_sort [10; 20; 30] nan) in H.
    destruct H as (_ & [H|H] & _); discriminate H.
Defined.

Lemma sorted_front_lowest (s : list double) :
  StronglySorted (fun a b => (b <? a) = false) s ->
  forall x, In x s -> (x <? front s) = false.
Proof.
  intros Hs x Hx. destruct Hs as [|a r _ Hall]; [destruct Hx|]. cbn [front hd].
  destruct Hx as [<-|Hx]; [apply double_ltb_irrefl|].
  rewrite Forall_forall in Hall. now apply Hall.
Qed.

Lemma back_In (s : list double) : s <> [] -> In (back s) s.
Proof.
  intros H. destruct (exists_last H) as (r & z & ->). unfold back.
  rewrite last_last. apply in_or_app. right. now left.
Qed.

Lemma sorted_back_highest (s : list double) :
  StronglySorted (fun a b => (b <? a) = false) s ->
  forall x, In x s -> (back s <? x) = false.
Proof.
  unfold back. induction 1 as [|a r Hr IH Hall]; intros x Hx; [destruct Hx|].
  destruct r as [|b r].
  - destruct Hx as [<-|[]]. apply double_ltb_irrefl.
  - change (last (a :: b :: r) 0) with (last (b :: r) 0).
    destruct Hx as [<-|Hx]; [|now apply IH].
    rewrite Forall_forall in Hall. apply Hall.
    apply (back_In (b :: r)). discriminate.
Qed.

(** X2: When [std::sort] does sort (its result is a rearrangement of the data in
    which no later element is below an earlier one), the 0th percentile is
    an element that no element is below and the 100th percentile an element
    that no element is above. *)
Theorem percentile_extremes (std_sort : list double -> list double)
    (data : list double) :
  data <> [] ->
  Permutation (std_sort data) data ->
  StronglySorted (fun a b => (b <? a) = false) (std_sort data) ->
  exists lo hi,
    percentile std_sort data 0 = Return lo /\
    percentile std_sort data 100 = Return hi /\
    In lo data /\ In hi data /\
    forall x, In x data -> (x <? lo) = false /\ (hi <? x) = false.
Proof.
  intros Hne Hperm Hsorted.
  assert (Hs : std_sort data <> []).
  { intros E. rewrite E in Hperm. apply Permutation_nil in Hperm. congruence. }
  exists (front (std_sort data)), (back (std_sort data)).
  unfold percentile. destruct data as [|d data]; [congruence|]. cbn [empty].
  change ((0 <? 0) || (100 <? 0)) with false.
  change ((100 <? 0) || (100 <? 100)) with false.
  change (0 =? 0) with true. change (100 =? 0) with false.
  change (100 =? 100) with true. cbv iota.
  split; [reflexivity|]. split; [reflexivity|]. split; [|split].
  - apply (Permutation_in _ Hperm).
    destruct (std_sort (d :: data)); [congruence | now left].
  - apply (Permutation_in _ Hperm). now apply back_In.
  - intros x Hx. apply (Permutation_in _ (Permutation_sym Hperm)) in Hx.
    split; [now apply sorted_front_lowest | now apply sorted_back_highest].
Qed.

Lemma percentile_extremes_witness :
  [30; 10; 20] <> [] /\
  exists lo hi,
    percentile insertion_sort [30; 10; 20] 0 = Return lo /\
    percentile insertion_sort [30; 10; 20] 100 = Return hi /\
    In lo [30; 10; 20] /\ In hi [30; 10; 20] /\
    forall x, In x [30; 10; 20] -> (x <? lo) = false /\ (hi <? x) = false.
Proof.
  split; [discriminate|].
  apply (percentile_extremes insertion_sort [30; 10; 20]).
  - discriminate.
  - change (insertion_sort [30; 10; 20]) with [10; 20; 30].
    apply Permutation_sym.
    apply (Permutation_cons_app [10; 20] [] 30 (Permutation_refl _)).
  - change (insertion_sort [30; 10; 20]) with [10; 20; 30].
    repeat (constructor; try reflexivity).
Defined.

(** *** The summary: smallest and largest element, and the other fields *)

Lemma pair_induction {A : Type} (P : list A -> Prop) :
  P [] -> (forall a, P [a]) -> (forall a b l, P l -> P (a :: b :: l)) ->
  forall l, P l.
Proof.
  intros H0 H1 H2 l.
  assert (H : P l /\ forall a, P (a :: l)); [|exact (proj1 H)].
  induction l as [|b l [IHl IHa]]; [split; [exact H0 | exact H1]|].
  split; [apply IHa|]. intros a. now apply H2.
Qed.

Lemma not_above_refl (x : double) : not_above x x.
Proof. apply double_ltb_irrefl. Qed.

Lemma not_above_of_ltb (x y : double) : (x <? y) = true -> not_above x y.
Proof.
  intros H. unfold not_above. destruct (y <? x) eqn:E; [|reflexivity].
  pose proof (double_ltb_trans _ _ _ H E) as H'.
  now rewrite double_ltb_irrefl in H'.
Qed.

Lemma not_above_trans (x y z : double) :
  not_nan y -> not_above x y -> not_above y z -> not_above x z.
Proof.
  unfold not_above. intros Hy Hxy Hyz. destruct (z <? x) eqn:E; [|reflexivity].
  destruct (double_ltb_split _ _ y E Hy); congruence.
Qed.

(** Whatever the data, the scan ends on elements it has seen. *)
Lemma minmax_scan_In (rest : list double) :
  forall mn mx,
    (fst (minmax_scan rest mn mx) = mn \/ In (fst (minmax_scan rest mn mx)) rest) /\
    (snd (minmax_scan rest mn mx) = mx \/ In (snd (minmax_scan rest mn mx)) rest).
Proof.
  induction rest as [|first|first next rest IH] using pair_induction; intros mn mx.
  - split; now left.
  - cbn [minmax_scan]. destruct (first <? mn); [|destruct (first <? mx)]; cbn [fst snd];
      split; (now left) || (right; now left).
  - cbn [minmax_scan].
    destruct (next <? first);
      match goal with
      | |- context [minmax_scan rest ?a ?b] => destruct (IH a b) as [[E1|H1] [E2|H2]]
      end;
      try rewrite E1; try rewrite E2;
      split;
      try (right; right; right; assumption);
      try (destruct (next <? mn); (now left) || (right; right; now left));
      try (destruct (first <? mn); (now left) || (right; now left));
      try (destruct (first <? mx); (now left) || (right; now left));
      try (destruct (next <? mx); (now left) || (right; right; now left)).
Qed.

(** On data without NaN the scan keeps the minimum not above, and the
    maximum not below, everything it has seen. *)
Lemma minmax_scan_bounds (rest : list double) :
  Forall not_nan rest ->
  forall mn mx,
    not_nan mn -> not_nan mx -> not_above mn mx ->
    not_above (fst (minmax_scan rest mn mx)) mn /\
    not_above mx (snd (minmax_scan rest mn mx)) /\
    forall x, In x rest ->
      not_above (fst (minmax_scan rest mn mx)) x /\
      not_above x (snd (minmax_scan rest mn mx)).
Proof.
  induction rest as [|first|first next rest IH] using pair_induction;
    intros Hnan mn mx Hmn Hmx Hle.
  - cbn [minmax_scan fst snd].
    split; [apply not_above_refl|]. split; [apply not_above_refl|]. intros x [].
  - inversion_clear Hnan as [|? ? Hf _]. cbn [minmax_scan].
    destruct (first <? mn) eqn:E1; [|destruct (first <? mx) eqn:E2]; cbn [fst snd].
    + apply not_above_of_ltb in E1.
      split; [exact E1|]. split; [apply not_above_refl|].
      intros x [<-|[]]. split; [apply not_above_refl|].
      now apply (not_above_trans _ mn).
    + apply not_above_of_ltb in E2. change (not_above mn first) in E1.
      split; [apply not_above_refl|]. split; [apply not_above_refl|].
      intros x [<-|[]]. split; assumption.
    + change (not_above mn first) in E1. change (not_above mx first) in E2.
      split; [apply not_above_refl|]. split; [exact E2|].
      intros x [<-|[]]. split; [exact E1 | apply not_above_refl].
  - inversion_clear Hnan as [|? ? Hf Hnan'].
    inversion_clear Hnan' as [|? ? Hn Hrest].
    cbn [minmax_scan].
    destruct (next <? first) eqn:Epair.
    + apply not_above_of_ltb in Epair.
      set (mn' := if next <? mn then next else mn).
      set (mx' := if first <? mx then mx else first).
      assert (Hmn' : not_nan mn') by (unfold mn'; now destruct (next <? mn)).
      assert (Hmx' : not_nan mx') by (unfold mx'; now destruct (first <? mx)).
      assert (H1 : not_above mn' mn /\ not_above mn' next).
      { unfold mn'. destruct (next <? mn) eqn:E.
        - split; [now apply not_above_of_ltb | apply not_above_refl].
        - split; [apply not_above_refl | exact E]. }
      assert (H2 : not_above mx mx' /\ not_above first mx').
      { unfold mx'. destruct (first <? mx) eqn:E.
        - split; [apply not_above_refl | now apply not_above_of_ltb].
        - split; [exact E | apply not_above_refl]. }
      destruct H1 as [H1a H1b]. destruct H2 as [H2a H2b].
      assert (Hle' : not_above mn' mx').
      { apply (not_above_trans _ mn); [exact Hmn | exact H1a|].
        now apply (not_above_trans _ mx). }
      destruct (IH Hrest mn' mx' Hmn' Hmx' Hle') as (Ha & Hb & Hall).
      split; [now apply (not_above_trans _ mn')|].
      split; [now apply (not_above_trans _ mx')|].
      intros x [<-|[<-|Hx]]; [| |now apply Hall].
      * split; [|now apply (not_above_trans _ mx')].
        apply (not_above_trans _ mn'); [exact Hmn' | exact Ha|].
        now apply (not_above_trans _ next).
      * split; [now apply (not_above_trans _ mn')|].
        apply (not_above_trans _ first); [exact Hf | exact Epair|].
        now apply (not_above_trans _ mx').
    + change (not_above first next) in Epair.
      set (mn' := if first <? mn then first else mn).
      set (mx' := if next <? mx then mx else next).
      assert (Hmn' : not_nan mn') by (unfold mn'; now destruct (first <? mn)).
      assert (Hmx' : not_nan mx') by (unfold mx'; now destruct (next <? mx)).
      assert (H1 : not_above mn' mn /\ not_above mn' first).
      { unfold mn'. destruct (first <? mn) eqn:E.
        - split; [now apply not_above_of_ltb | apply not_above_refl].
        - split; [apply not_above_refl | exact E]. }
      assert (H2 : not_above mx mx' /\ not_above next mx').
      { unfold mx'. destruct (next <? mx) eqn:E.
        - split; [apply not_above_refl | now apply not_above_of_ltb].
        - split; [exact E | apply not_above_refl]. }
      destruct H1 as [H1a H1b]. destruct H2 as [H2a H2b].
      assert (Hle' : not_above mn' mx').
      { apply (not_above_trans _ mn); [exact Hmn | exact H1a|].
        now apply (not_above_trans _ mx). }
      destruct (IH Hrest mn' mx' Hmn' Hmx' Hle') as (Ha & Hb & Hall).
      split; [now apply (not_above_trans _ mn')|].
      split; [now apply (not_above_trans _ mx')|].
      intros x [<-|[<-|Hx]]; [| |now apply Hall].
      * split; [now apply (not_above_trans _ mn')|].
        apply (not_above_trans _ next); [exact Hn | exact Epair|].
        now apply (not_above_trans _ mx').
      * split; [|now apply (not_above_trans _ mx')].
        apply (not_above_trans _ mn'); [exact Hmn' | exact Ha|].
        now apply (not_above_trans _ first).
Qed.

(** The smallest and the largest element found by [calculate_all] are
    elements of the input. *)
Lemma minmax_element_In (data : list double) :
  data <> [] -> In (min_element data) data /\ In (max_element data) data.
Proof.
  intros Hne. unfold min_element, max_element, minmax_element.
  destruct data as [|first [|next rest]]; [congruence| |].
  - cbn [fst snd]. split; now left.
  - destruct (next <? first);
      match goal with
      | |- context [minmax_scan rest ?a ?b] =>
          destruct (minmax_scan_In rest a b) as [[E1|H1] [E2|H2]]
      end;
      try rewrite E1; try rewrite E2;
      split; (now left) || (right; now left) || (right; right; assumption).
Qed.

Lemma min_element_lowest (data : list double) :
  data <> [] -> Forall not_nan data ->
  forall x, In x data -> (x <? min_element data) = false.
Proof.
  intros Hne Hnan. unfold min_element, minmax_element.
  destruct data as [|first [|next rest]]; [congruence| |].
  - cbn [fst]. intros x [<-|[]]. apply double_ltb_irrefl.
  - inversion_clear Hnan as [|? ? Hf Hnan']. inversion_clear Hnan' as [|? ? Hn Hrest].
    destruct (next <? first) eqn:E.
    + apply not_above_of_ltb in E.
      destruct (minmax_scan_bounds rest Hrest next first Hn Hf E) as (Ha & _ & Hall).
      intros x [<-|[<-|Hx]]; [|exact Ha | now apply Hall].
      now apply (not_above_trans _ next).
    + change (not_above first next) in E.
      destruct (minmax_scan_bounds rest Hrest first next Hf Hn E) as (Ha & _ & Hall).
      intros x [<-|[<-|Hx]]; [exact Ha | | now apply Hall].
      now apply (not_above_trans _ first).
Qed.

Lemma max_element_highest (data : list double) :
  data <> [] -> Forall not_nan data ->
  forall x, In x data -> (max_element data <? x) = false.
Proof.
  intros Hne Hnan. unfold max_element, minmax_element.
  destruct data as [|first [|next rest]]; [congruence| |].
  - cbn [snd]. intros x [<-|[]]. apply double_ltb_irrefl.
  - inversion_clear Hnan as [|? ? Hf Hnan']. inversion_clear Hnan' as [|? ? Hn Hrest].
    destruct (next <? first) eqn:E.
    + apply not_above_of_ltb in E.
      destruct (minmax_scan_bounds rest Hrest next first Hn Hf E) as (_ & Hb & Hall).
      intros x [<-|[<-|Hx]]; [exact Hb | | now apply Hall].
      now apply (not_above_trans _ first).
    + change (not_above first next) in E.
      destruct (minmax_scan_bounds rest Hrest first next Hf Hn E) as (_ & Hb & Hall).
      intros x [<-|[<-|Hx]]; [|exact Hb | now apply Hall].
      now apply (not_above_trans _ next).
Qed.

Lemma calculate_all_non_empty
    (std_sort : list double -> list double)
    (map_order : list (double * Z) -> list (double * Z))
    (data : list double) :
  data <> [] ->
  exists q1 q3,
    percentile std_sort data 25 = Return q1 /\
    percentile std_sort data 75 = Return q3 /\
    calculate_all std_sort map_order data
    = Return (mkStatisticsResult (sum data) (sum data / double_of_Z (size data))
                (median std_sort data) (mode map_order data) (variance data)
                (sqrt (variance data)) (min_element data) (max_element data)
                (max_element data - min_element data) q1 q3 (q3 - q1) (size data)).
Proof.
  intros Hne. unfold calculate_all. destruct data as [|d data]; [congruence|].
  cbn [empty].
  destruct (percentile_returns std_sort (d :: data) 25) as [q1 E1]; try reflexivity.
  destruct (percentile_returns std_sort (d :: data) 75) as [q3 E3]; try reflexivity.
  exists q1, q3. rewrite E1, E3. repeat split.
Qed.

(** X4: In the summary of a non-empty input, [min] and [max] are elements of
    the input; when the input holds no NaN, no element is below [min], no
    element is above [max], and [max] is not below [min]. *)
Theorem calculate_all_min_max
    (std_sort : list double -> list double)
    (map_order : list (double * Z) -> list (double * Z))
    (data : list double) :
  data <> [] ->
  exists r,
    calculate_all std_sort map_order data = Return r /\
    In (min_ r) data /\ In (max_ r) data /\
    (Forall not_nan data ->
     (forall x, In x data -> (x <? min_ r) = false) /\
     (forall x, In x data -> (max_ r <? x) = false) /\
     (max_ r <? min_ r) = false).
Proof.
  intros Hne.
  destruct (calculate_all_non_empty std_sort map_order data Hne) as (q1 & q3 & _ & _ & E).
  eexists. split; [exact E|]. cbn [min_ max_].
  destruct (minmax_element_In data Hne) as [Hmin Hmax].
  split; [exact Hmin|]. split; [exact Hmax|].
  intros Hnan.
  pose proof (min_element_lowest data Hne Hnan) as Hlow.
  pose proof (max_element_highest data Hne Hnan) as Hup.
  split; [exact Hlow|]. split; [exact Hup | now apply Hup].
Qed.

Lemma calculate_all_min_max_witness :
  [30; 10; 20] <> [] /\ Forall not_nan [30; 10; 20] /\
  exists r,
    calculate_all insertion_sort oldest_first [30; 10; 20] = Return r /\
    In (min_ r) [30; 10; 20] /\ In (max_ r) [30; 10; 20] /\
    (Forall not_nan [30; 10; 20] ->
     (forall x, In x [30; 10; 20] -> (x <? min_ r) = false) /\
     (forall x, In x [30; 10; 20] -> (max_ r <? x) = false) /\
     (max_ r <? min_ r) = false).
Proof.
  split; [discriminate|]. split; [repeat constructor|].
  apply (calculate_all_min_max insertion_sort oldest_first [30; 10; 20]).
  discriminate.
Defined.

(** X3: For an input without NaN and a [std::sort] that sorts, the 0th and the
    100th percentile compare equal to the [min] and [max] of the summary. *)
Theorem percentile_ends_are_min_max
    (std_sort : list double -> list double)
    (map_order : list (double * Z) -> list (double * Z))
    (data : list double) :
  data <> [] -> Forall not_nan data ->
  Permutation (std_sort data) data ->
  StronglySorted (fun a b => (b <? a) = false) (std_sort data) ->
  exists r lo hi,
    calculate_all std_sort map_order data = Return r /\
    percentile std_sort data 0 = Return lo /\
    percentile std_sort data 100 = Return hi /\
    (lo =? min_ r) = true /\ (hi =? max_ r) = true.
Proof.
  intros Hne Hnan Hperm Hsorted.
  destruct (calculate_all_non_empty std_sort map_order data Hne) as (q1 & q3 & _ & _ & E).
  assert (Hs : std_sort data <> []).
  { intros E'. rewrite E' in Hperm. apply Permutation_nil in Hperm. congruence. }
  eexists. exists (front (std_sort data)), (back (std_sort data)).
  split; [exact E|]. cbn [min_ max_].
  destruct (minmax_element_In data Hne) as [Hmin Hmax].
  pose proof (min_element_lowest data Hne Hnan) as Hlow.
  pose proof (max_element_highest data Hne Hnan) as Hup.
  assert (Hfront : In (front (std_sort data)) data).
  { apply (Permutation_in _ Hperm).
    destruct (std_sort data); [congruence | now left]. }
  assert (Hback : In (back (std_sort data)) data).
  { apply (Permutation_in _ Hperm). now apply back_In. }
  rewrite Forall_forall in Hnan.
  unfold percentile. destruct data as [|d data]; [congruence|]. cbn [empty].
  change ((0 <? 0) || (100 <? 0)) with false.
  change ((100 <? 0) || (100 <? 100)) with false.
  change (0 =? 0) with true. change (100 =? 0) with false.
  change (100 =? 100) with true. cbv iota.
  split; [reflexivity|]. split; [reflexivity|]. split.
  - apply double_not_ltb_eqb; auto.
    apply sorted_front_lowest; [exact Hsorted|].
    now apply (Permutation_in _ (Permutation_sym Hperm)).
  - apply double_not_ltb_eqb; auto.
    apply sorted_back_highest; [exact Hsorted|].
    now apply (Permutation_in _ (Permutation_sym Hperm)).
Qed.

Lemma percentile_ends_are_min_max_witness :
  [30; 10; 20] <> [] /\ Forall not_nan [30; 10; 20] /\
  exists r lo hi,
    calculate_all insertion_sort oldest_first [30; 10; 20] = Return r /\
    percentile insertion_sort [30; 10; 20] 0 = Return lo /\
    percentile insertion_sort [30; 10; 20] 100 = Return hi /\
    (lo =? min_ r) = true /\ (hi =? max_ r) = true.
Proof.
  split; [discriminate|]. split; [repeat constructor|].
  apply (percentile_ends_are_min_max insertion_sort oldest_first [30; 10; 20]).
  - discriminate.
  - repeat constructor.
  - change (insertion_sort [30; 10; 20]) with [10; 20; 30].
    apply Permutation_sym.
    apply (Permutation_cons_app [10; 20] [] 30 (Permutation_refl _)).
  - change (insertion_sort [30; 10; 20]) with [10; 20; 30].
    repeat (constructor; try reflexivity).
Defined.

(** X5: Every field of the summary but [min], [max] and [range] is what the
    function of the same name returns on the same input, the empty input
    included; the quartiles are the 25th and 75th percentile. *)
Theorem calculate_all_agrees_with_functions
    (std_sort : list double -> list double)
    (map_order : list (double * Z) -> list (double * Z))
    (data : list double) :
  exists r,
    calculate_all std_sort map_order data = Return r /\
    sum_ r = sum data /\
    mean_ r = mean data /\
    median_ r = median std_sort data /\
    mode_ r = mode map_order data /\
    variance_ r = variance data /\
    stddev_ r = stddev data /\
    percentile std_sort data 25 = Return (q1_ r) /\
    percentile std_sort data 75 = Return (q3_ r).
Proof.
  destruct data as [|d data].
  - eexists. split; [reflexivity|]. repeat split.
  - destruct (calculate_all_non_empty std_sort map_order (d :: data))
      as (q1 & q3 & E1 & E3 & E); [discriminate|].
    eexists. split; [exact E|]. cbn [sum_ mean_ median_ mode_ variance_ stddev_ q1_ q3_].
    repeat split; auto.
Qed.

(** With a NaN among the data the pairwise scan can pass by the smallest
    and the largest element: of 5, 6, NaN, 1 it keeps 5 and 6, and of
    2, NaN, 1 it keeps 1 and NaN. *)
Example minmax_element_with_nan :
  minmax_element [5; 6; nan; 1] = (5, 6) /\
  minmax_element [2; nan; 1] = (1, nan) /\
  minmax_element [10; 20; 30; 40; 50] = (10, 50).
Proof. repeat split. Qed.

(** *** Median *)

Lemma filter_length_perm {A : Type} (f : A -> bool) (l l' : list A) :
  Permutation l l' -> length (filter f l) = length (filter f l').
Proof.
  induction 1 as [|x l l' _ IH|x y l|l l' l'' _ IH1 _ IH2]; cbn [filter].
  - reflexivity.
  - destruct (f x); cbn [length]; now rewrite IH.
  - destruct (f x), (f y); reflexivity.
  - now rewrite IH1.
Qed.

Lemma filter_all {A : Type} (f : A -> bool) (l : list A) :
  Forall (fun x => f x = true) l -> filter f l = l.
Proof.
  intros H. apply forallb_filter_id, forallb_forall. now apply Forall_forall.
Qed.

Lemma filter_length_le {A : Type} (f : A -> bool) (l : list A) :
  (length (filter f l) <= length l)%nat.
Proof.
  induction l as [|a l IH]; cbn [filter length]; [lia|].
  destruct (f a); cbn [length]; lia.
Qed.

Lemma sorted_split (l1 : list double) (a : double) (l2 : list double) :
  StronglySorted (fun a b => (b <? a) = false) (l1 ++ a :: l2) ->
  Forall (fun x => (a <? x) = false) l1 /\ Forall (fun x => (x <? a) = false) l2.
Proof.
  induction l1 as [|b l1 IH]; cbn [app]; intros H.
  - apply StronglySorted_inv in H as [_ H]. split; [constructor | exact H].
  - apply StronglySorted_inv in H as [Hs Hb].
    destruct (IH Hs) as [H1 H2]. split; [|exact H2].
    constructor; [|exact H1].
    rewrite Forall_forall in Hb. apply Hb. apply in_elt.
Qed.

(** X6: When [std::sort] sorts, the median of an odd number of observations is
    one of them, and it splits them: more than half of the observations are
    not above it and more than half are not below it. *)
Theorem median_odd_splits (std_sort : list double -> list double)
    (data : list double) :
  (length data mod 2 = 1)%nat ->
  Permutation (std_sort data) data ->
  StronglySorted (fun a b => (b <? a) = false) (std_sort data) ->
  let m := median std_sort data in
  In m data /\
  (length data / 2 < length (filter (fun x => negb (m <? x)%float) data))%nat /\
  (length data / 2 < length (filter (fun x => negb (x <? m)%float) data))%nat.
Proof.
  intros Hodd Hperm Hsorted. cbv zeta.
  pose proof (Permutation_length Hperm) as Hlen.
  unfold median. destruct data as [|d data]; [discriminate Hodd|]. cbn [empty].
  set (dat := d :: data) in *. set (s := std_sort dat) in *.
  rewrite Hlen, Hodd. cbn [Nat.eqb].
  set (k := (length dat / 2)%nat).
  assert (Hn : length dat = (2 * k + 1)%nat).
  { unfold k. pose proof (Nat.div_mod_eq (length dat) 2). lia. }
  assert (Hk : (k < length s)%nat) by lia.
  destruct (nth_split s 0 Hk) as (l1 & l2 & Es & Hl1).
  fold (at_ s k) in Es. set (m := at_ s k) in *.
  destruct (sorted_split l1 m l2) as [H1 H2]; [now rewrite <- Es|].
  assert (Hl2 : length l2 = k).
  { apply (f_equal (@length double)) in Es.
    rewrite length_app in Es. cbn [length] in Es. lia. }
  split; [|split].
  - apply (Permutation_in _ Hperm). rewrite Es. apply in_elt.
  - rewrite <- (filter_length_perm _ _ _ Hperm). fold s. rewrite Es, filter_app.
    cbn [filter]. rewrite double_ltb_irrefl. cbn [negb].
    rewrite filter_all
      by (apply Forall_forall; intros x Hx; rewrite Forall_forall in H1;
          now rewrite (H1 x Hx)).
    rewrite length_app. cbn [length]. lia.
  - rewrite <- (filter_length_perm _ _ _ Hperm). fold s. rewrite Es, filter_app.
    cbn [filter]. rewrite double_ltb_irrefl. cbn [negb].
    rewrite (filter_all _ l2)
      by (apply Forall_forall; intros x Hx; rewrite Forall_forall in H2;
          now rewrite (H2 x Hx)).
    rewrite length_app. cbn [length]. lia.
Qed.

Lemma median_odd_splits_witness :
  (length [30; 10; 20]%float mod 2 = 1)%nat /\
  In (median insertion_sort [30; 10; 20]) [30; 10; 20] /\
  (length [30; 10; 20]%float / 2
   < length (filter (fun x => negb (median insertion_sort [30; 10; 20]%float <? x)%float)
               [30; 10; 20]%float))%nat.
Proof.
  split; [reflexivity|].
  assert (H : let m := median insertion_sort [30; 10; 20] in
              In m [30; 10; 20] /\
              (length [30; 10; 20]%float / 2
               < length (filter (fun x => negb (m <? x)%float) [30; 10; 20]%float))%nat /\
              (length [30; 10; 20]%float / 2
               < length (filter (fun x => negb (x <? m)%float) [30; 10; 20]%float))%nat).
  { apply (median_odd_splits insertion_sort [30; 10; 20]).
    - reflexivity.
    - change (insertion_sort [30; 10; 20]) with [10; 20; 30].
      apply Permutation_sym.
      apply (Permutation_cons_app [10; 20] [] 30 (Permutation_refl _)).
    - change (insertion_sort [30; 10; 20]) with [10; 20; 30].
      repeat (constructor; try reflexivity). }
  cbv zeta in H. destruct H as (H1 & H2 & _). split; assumption.
Defined.

(** *** Moving averages *)

(** The series of a simple moving average over a non-empty input with a
    window above 0, in closed form. *)
Lemma moving_average_values (data : list double) (window : Z) :
  data <> [] -> (0 < window)%Z ->
  let w := Z.min window (size data) in
  moving_average data window
  = mkMovingAverageResult
      (map (fun k => window_sum_at data (Z.to_nat w) k / double_of_Z w)
         (seq 0 (S (length data - Z.to_nat w))))
      (window_sum_at data (Z.to_nat w) (length data - Z.to_nat w) / double_of_Z w)
      w.
Proof.
  intros Hne Hw. cbv zeta. rewrite moving_average_eq.
  destruct data as [|d data]; [congruence|]. cbn [empty orb].
  destruct (Z.leb_spec window 0); [lia|].
  set (n := length (d :: data)).
  assert (Hw' : (if (size (d :: data) <? window)%Z then size (d :: data) else window)
                = Z.min window (size (d :: data))).
  { destruct (Z.ltb_spec (size (d :: data)) window); lia. }
  rewrite Hw'. set (w := Z.min window (size (d :: data))).
  assert (Hwn : (1 <= Z.to_nat w <= n)%nat).
  { unfold w, size. fold n. assert (1 <= n)%nat by (unfold n; cbn [length]; lia). lia. }
  cbv zeta.
  rewrite (index_sum_slice (d :: data) (Z.to_nat w) 0 0) by (fold n; lia).
  change (fold_left add (firstn (Z.to_nat w) (skipn 0 (d :: data))) 0)
    with (window_sum_at (d :: data) (Z.to_nat w) 0).
  rewrite (slide_fold (d :: data) w (n - Z.to_nat w)).
  f_equal.
  rewrite (seq_S (n - Z.to_nat w)), map_app. cbn [map].
  destruct (map _ (seq 0 (n - Z.to_nat w)) ++ [_]) eqn:E;
    [now destruct (map _ (seq 0 (n - Z.to_nat w))) |].
  cbn [empty]. rewrite <- E. unfold back. now rewrite last_last.
Qed.

(** X7: A simple moving average has no value exactly when the input is empty or
    the window is not above 0; it then reports a current average of 0.0 and
    hands the window back unchanged, whatever it was. *)
Theorem moving_average_empty_iff (data : list double) (window : Z) :
  (values (moving_average data window) = [] <-> data = [] \/ (window <= 0)%Z) /\
  (data = [] \/ (window <= 0)%Z ->
   moving_average data window = mkMovingAverageResult [] 0 window).
Proof.
  assert (Hdeg : data = [] \/ (window <= 0)%Z ->
                 moving_average data window = mkMovingAverageResult [] 0 window).
  { intros H. rewrite moving_average_eq.
    destruct data as [|d data]; [reflexivity|]. cbn [empty orb].
    destruct (Z.leb_spec window 0); [reflexivity|].
    destruct H as [H|H]; [discriminate | lia]. }
  split; [|exact Hdeg]. split.
  - intros E. destruct data as [|d data]; [now left|]. right.
    destruct (Z.le_gt_cases window 0) as [Hle|Hgt]; [exact Hle|].
    rewrite (moving_average_values (d :: data) window) in E by (discriminate || lia).
    discriminate E.
  - intros H. now rewrite (Hdeg H).
Qed.

Lemma moving_average_empty_iff_witness :
  ([10; 20; 30] = [] \/ (-4 <= 0)%Z) /\
  moving_average [10; 20; 30] (-4) = mkMovingAverageResult [] 0 (-4).
Proof.
  split; [right; lia|].
  apply (moving_average_empty_iff [10; 20; 30] (-4)). right. lia.
Defined.

(** X8: A window at least as long as the input gives a single value, the mean
    of the whole input, reported with the input length as window. *)
Theorem moving_average_whole_input (data : list double) (window : Z) :
  data <> [] -> (size data <= window)%Z ->
  moving_average data window
  = mkMovingAverageResult [mean data] (mean data) (size data).
Proof.
  intros Hne Hw.
  assert (Hpos : (0 < size data)%Z).
  { destruct data; [congruence|]. unfold size. cbn [length]. lia. }
  rewrite (moving_average_values data window Hne) by lia.
  rewrite Z.min_r by exact Hw.
  replace (Z.to_nat (size data)) with (length data)
    by (unfold size; now rewrite Nat2Z.id).
  rewrite Nat.sub_diag. cbn [seq map window_sum_at]. rewrite firstn_all.
  assert (E : fold_left add data 0 / double_of_Z (size data) = mean data).
  { unfold mean, sum. destruct data; [congruence | reflexivity]. }
  now rewrite E.
Qed.

Lemma moving_average_whole_input_witness :
  [10; 20; 30] <> [] /\ (size [10; 20; 30]%float <= 7)%Z /\
  moving_average [10; 20; 30] 7
  = mkMovingAverageResult [mean [10; 20; 30]] (mean [10; 20; 30])
      (size [10; 20; 30]%float).
Proof.
  split; [discriminate|]. split; [vm_compute; discriminate|].
  apply (moving_average_whole_input [10; 20; 30] 7);
    [discriminate | vm_compute; discriminate].
Defined.

(** X9: In every result of either moving average the current average is the
    last value of the series, and 0.0 when the series is empty. *)
Theorem current_average_is_last_value
    (data : list double) (window : Z) (alpha : double) :
  let sma := moving_average data window in
  let ema := exponential_moving_average data alpha in
  current_average sma = (if empty (values sma) then 0 else back (values sma)) /\
  current_average ema = (if empty (values ema) then 0 else back (values ema)).
Proof.
  cbv zeta. split.
  - rewrite moving_average_eq.
    destruct (empty data || (window <=? 0)%Z); [reflexivity|]. cbv zeta.
    match goal with
    | |- context [fold_left (slide_step ?d ?w) ?l ?a] =>
        destruct (fold_left (slide_step d w) l a)
    end.
    reflexivity.
  - rewrite exponential_moving_average_eq.
    destruct (empty data || (alpha <=? 0) || (1 <? alpha)) eqn:G; [reflexivity|].
    cbv zeta. cbn [values current_average].
    destruct (ema_fold_spec data alpha (length data - 1)) as (Hlen & _).
    cbv zeta in Hlen.
    destruct (fold_left (ema_step data alpha) (seq 1 (length data - 1)) [at_ data 0]);
      [discriminate Hlen | reflexivity].
Qed.

(** X21: An exponential moving average has no value exactly when the input is
    empty or alpha compares at most 0 or above 1; the result is then the
    empty series with current average 0.0 and descriptor -1. Any other
    alpha, a NaN included, gives one value per observation. *)
Theorem exponential_moving_average_empty_iff (data : list double) (alpha : double) :
  (values (exponential_moving_average data alpha) = []
   <-> data = [] \/ (alpha <=? 0) = true \/ (1 <? alpha) = true) /\
  (data = [] \/ (alpha <=? 0) = true \/ (1 <? alpha) = true ->
   exponential_moving_average data alpha = mkMovingAverageResult [] 0 (-1)) /\
  (data <> [] -> (alpha <=? 0) = false -> (1 <? alpha) = false ->
   length (values (exponential_moving_average data alpha)) = length data).
Proof.
  rewrite exponential_moving_average_eq.
  assert (Hlen : forall d rest,
            length (fold_left (ema_step (d :: rest) alpha)
                      (seq 1 (length (d :: rest) - 1)) [at_ (d :: rest) 0])
            = length (d :: rest)).
  { intros d rest.
    destruct (ema_fold_spec (d :: rest) alpha (length (d :: rest) - 1)) as (Hl & _).
    cbv zeta in Hl. rewrite Hl. cbn [length]. lia. }
  destruct data as [|d data]; cbn [empty orb].
  - split; [split; [now left | reflexivity]|]. split; [reflexivity | congruence].
  - destruct (alpha <=? 0) eqn:H0; cbn [orb].
    + split; [split; [right; now left | reflexivity]|].
      split; [reflexivity | discriminate].
    + destruct (1 <? alpha) eqn:H1.
      * split; [split; [right; now right | reflexivity]|].
        split; [reflexivity | discriminate].
      * cbv zeta. cbn [values]. split; [|split].
        -- split.
           ++ intros E. apply (f_equal (@length double)) in E.
              rewrite Hlen in E. discriminate E.
           ++ intros [H|[H|H]]; discriminate H.
        -- intros [H|[H|H]]; discriminate H.
        -- intros _ _ _. apply Hlen.
Qed.

Lemma exponential_moving_average_empty_iff_witness :
  ([10; 20; 30] = [] \/ (1.5 <=? 0) = true \/ (1 <? 1.5) = true) /\
  exponential_moving_average [10; 20; 30] 1.5 = mkMovingAverageResult [] 0 (-1) /\
  [10; 20; 30] <> [] /\ (nan <=? 0) = false /\ (1 <? nan) = false /\
  length (values (exponential_moving_average [10; 20; 30] nan)) = length [10; 20; 30].
Proof.
  split; [right; right; reflexivity|]. split.
  - apply (proj1 (proj2 (exponential_moving_average_empty_iff [10; 20; 30] 1.5))).
    right. right. reflexivity.
  - split; [discriminate|]. split; [reflexivity|]. split; [reflexivity|].
    apply (proj2 (proj2 (exponential_moving_average_empty_iff [10; 20; 30] nan)));
      [discriminate | reflexivity | reflexivity].
Defined.

(** *** Correlation *)

Lemma correlation_valid (x y : list double) :
  length x = length y -> (2 <= length x)%nat ->
  exists r,
    correlation x y
    = mkCorrelationResult r (r * r) (classify_strength (abs r)) (classify_direction r).
Proof.
  intros Hlen H2. unfold correlation, size. rewrite Hlen, Z.eqb_refl. cbn [negb orb].
  destruct (Z.ltb_spec (Z.of_nat (length y)) 2); [lia|].
  match goal with
  | |- context [fold_left ?f ?l ?a] => destruct (fold_left f l a) as [[num sx] sy]
  end.
  eexists. reflexivity.
Qed.

Lemma classify_strength_labels (a : double) :
  In (classify_strength a) ["very_strong"; "strong"; "moderate"; "weak"; "very_weak"].
Proof.
  unfold classify_strength.
  destruct (0.8 <=? a); [now left|]. destruct (0.6 <=? a); [right; now left|].
  destruct (0.4 <=? a); [right; right; now left|].
  destruct (0.2 <=? a); [right; right; right; now left|].
  right; right; right; right; now left.
Qed.

Lemma classify_direction_labels (r : double) :
  In (classify_direction r) ["positive"; "negative"; "none"].
Proof.
  unfold classify_direction.
  destruct (0.1 <? r); [now left|]. destruct (r <? -0.1); [right; now left|].
  right; right; now left.
Qed.

(** X10: The strength label is "invalid" exactly when the sequences differ in
    length or are shorter than two; otherwise the strength is one of the
    five grades, the direction one of "positive", "negative", "none", and
    r-squared is the product of the coefficient with itself. *)
Theorem correlation_labels (x y : list double) :
  (strength (correlation x y) = "invalid"
   <-> length x <> length y \/ (length x < 2)%nat) /\
  (length x = length y -> (2 <= length x)%nat ->
   In (strength (correlation x y))
     ["very_strong"; "strong"; "moderate"; "weak"; "very_weak"] /\
   In (direction (correlation x y)) ["positive"; "negative"; "none"] /\
   r_squared (correlation x y)
   = pearson_coefficient (correlation x y) * pearson_coefficient (correlation x y)).
Proof.
  assert (Hvalid : length x = length y -> (2 <= length x)%nat ->
            In (strength (correlation x y))
              ["very_strong"; "strong"; "moderate"; "weak"; "very_weak"] /\
            In (direction (correlation x y)) ["positive"; "negative"; "none"] /\
            r_squared (correlation x y)
            = pearson_coefficient (correlation x y)
              * pearson_coefficient (correlation x y)).
  { intros Hlen H2. destruct (correlation_valid x y Hlen H2) as [r ->].
    cbn [strength direction r_squared pearson_coefficient].
    split; [apply classify_strength_labels|].
    split; [apply classify_direction_labels | reflexivity]. }
  split; [|exact Hvalid]. split.
  - intros E.
    destruct (Nat.eq_dec (length x) (length y)) as [Hlen|Hlen]; [|now left].
    destruct (Nat.lt_ge_cases (length x) 2) as [Hlt|Hge]; [now right|].
    destruct (Hvalid Hlen Hge) as (Hs & _). rewrite E in Hs.
    repeat (destruct Hs as [Hs|Hs]; [discriminate Hs|]). destruct Hs.
  - intros H. unfold correlation, size.
    destruct (Z.eqb_spec (Z.of_nat (length x)) (Z.of_nat (length y))) as [E|E];
      cbn [negb orb]; [|reflexivity].
    destruct (Z.ltb_spec (Z.of_nat (length x)) 2); [reflexivity|].
    exfalso. destruct H as [H|H]; lia.
Qed.

Lemma correlation_labels_witness :
  length [1; 2; 3] = length [2; 4; 7] /\ (2 <= length [1; 2; 3])%nat /\
  In (strength (correlation [1; 2; 3] [2; 4; 7]))
    ["very_strong"; "strong"; "moderate"; "weak"; "very_weak"].
Proof.
  split; [reflexivity|]. split; [simpl; lia|].
  apply (correlation_labels [1; 2; 3] [2; 4; 7]); [reflexivity | simpl; lia].
Defined.

Lemma double_leb_key (x y : double) :
  (x <=? y) = true
  <-> exists kx ky, double_key x = Some kx /\ double_key y = Some ky
                    /\ (lex_lt kx ky \/ kx = ky).
Proof.
  rewrite FloatAxioms.leb_spec. unfold SFleb, double_key. rewrite SFcompare_key.
  destruct (sf_key (Prim2SF x)) as [kx|], (sf_key (Prim2SF y)) as [ky|];
    try (split; [discriminate | intros (? & ? & ? & ? & _); discriminate]).
  destruct (lex_compare kx ky) eqn:E; split; intros H; try discriminate;
    try reflexivity.
  - exists kx, ky. repeat split. right. now apply lex_compare_Eq.
  - exists kx, ky. repeat split. left. now apply lex_compare_Lt.
  - destruct H as (a & b & Ha & Hb & Hle). inversion Ha; inversion Hb; subst.
    apply lex_compare_Gt in E.
    exfalso. destruct Hle as [Hlt | ->]; [|now apply lex_lt_irrefl in E].
    now apply (lex_lt_irrefl a), (lex_lt_trans _ b).
Qed.

Lemma double_ltb_leb_trans (x y z : double) :
  (x <? y) = true -> (y <=? z) = true -> (x <? z) = true.
Proof.
  rewrite !double_ltb_key, double_leb_key.
  intros (kx & ky & Hx & Hy & H1) (ky' & kz & Hy' & Hz & H2).
  exists kx, kz. repeat split; auto.
  assert (ky' = ky) by congruence. subst.
  destruct H2 as [H2 | ->]; [now apply (lex_lt_trans _ ky) | exact H1].
Qed.

(** A bound below the magnitude of [r] is below [r], or [r] is below the
    negated bound. *)
Lemma SFltb_abs (c r : spec_float) :
  SFltb c (SFabs r) = true -> SFltb c r = true \/ SFltb r (SFopp c) = true.
Proof.
  unfold SFltb.
  destruct c as [sc|sc| |sc mc ec], r as [sr|sr| |sr mr er]; cbn [SFabs SFopp SFcompare];
    try (intros H; discriminate H);
    try (destruct sc, sr; cbn; intros H; try discriminate H; auto; fail).
  change (PosDef.Pos.compare_cont Eq mc mr) with (Pos.compare mc mr).
  change (PosDef.Pos.compare_cont Eq mr mc) with (Pos.compare mr mc).
  rewrite (Z.compare_antisym ec er), (Pos.compare_antisym mc mr).
  destruct sc, sr; cbn [negb]; auto;
    destruct (ec ?= er)%Z; cbn [CompOpp]; auto;
    destruct (mc ?= mr)%positive; cbn [CompOpp]; auto.
Qed.

Lemma double_ltb_abs (c r : double) :
  (c <? abs r) = true -> (c <? r) = true \/ (r <? - c) = true.
Proof.
  rewrite !FloatAxioms.ltb_spec, FloatAxioms.abs_spec, FloatAxioms.opp_spec.
  apply SFltb_abs.
Qed.

Lemma graded_has_direction (c r : double) :
  (0.1 <? c) = true -> (c <=? abs r) = true ->
  (0.1 <? r) = true \/ (r <? -0.1) = true.
Proof.
  intros Hc Hr. apply (double_ltb_abs 0.1 r).
  now apply (double_ltb_leb_trans _ c).
Qed.

(** X11: Strength and direction agree: a correlation graded "weak" or stronger is
    "positive" or "negative", and a correlation whose direction is "none"
    is graded "very_weak" (or is "invalid"). *)
Theorem correlation_direction_none_is_weakest (x y : list double) :
  direction (correlation x y) = "none" ->
  strength (correlation x y) = "very_weak" \/ strength (correlation x y) = "invalid".
Proof.
  destruct (Nat.eq_dec (length x) (length y)) as [Hlen|Hlen];
    [destruct (Nat.lt_ge_cases (length x) 2) as [Hlt|Hge]|].
  - intros _. right. unfold correlation, size. rewrite Hlen, Z.eqb_refl.
    cbn [negb orb]. destruct (Z.ltb_spec (Z.of_nat (length y)) 2); [reflexivity|lia].
  - destruct (correlation_valid x y Hlen Hge) as [r ->]. cbn [strength direction].
    unfold classify_direction, classify_strength. intros Hd. left.
    destruct (0.1 <? r) eqn:Hpos; [discriminate Hd|].
    destruct (r <? -0.1) eqn:Hneg; [discriminate Hd|].
    assert (Hno : forall c, (0.1 <? c) = true -> (c <=? abs r) = false).
    { intros c Hc. destruct (c <=? abs r) eqn:E; [|reflexivity].
      destruct (graded_has_direction c r Hc E); congruence. }
    rewrite (Hno 0.8), (Hno 0.6), (Hno 0.4), (Hno 0.2) by reflexivity.
    reflexivity.
  - intros _. right. unfold correlation, size.
    destruct (Z.eqb_spec (Z.of_nat (length x)) (Z.of_nat (length y))) as [E|E];
      [lia | reflexivity].
Qed.

Lemma correlation_direction_none_is_weakest_witness :
  direction (correlation [1; 2; 3; 4] [5; 7; 7; 5]) = "none" /\
  (strength (correlation [1; 2; 3; 4] [5; 7; 7; 5]) = "very_weak" \/
   strength (correlation [1; 2; 3; 4] [5; 7; 7; 5]) = "invalid").
Proof.
  split; [reflexivity|].
  apply (correlation_direction_none_is_weakest [1; 2; 3; 4] [5; 7; 7; 5]).
  reflexivity.
Defined.

(** *** Outlier detection *)

Lemma StronglySorted_filter {A : Type} (R : A -> A -> Prop) (f : A -> bool) (l : list A) :
  StronglySorted R l -> StronglySorted R (filter f l).
Proof.
  induction 1 as [|a l Hl IH Ha]; cbn [filter]; [constructor|].
  destruct (f a); [|exact IH]. constructor; [exact IH|].
  apply Forall_forall. intros x Hx. apply filter_In in Hx as [Hx _].
  rewrite Forall_forall in Ha. now apply Ha.
Qed.

Lemma seq_StronglySorted (len start : nat) : StronglySorted lt (seq start len).
Proof.
  revert start; induction len as [|len IH]; intros start; cbn [seq]; constructor.
  - apply IH.
  - apply Forall_forall. intros x Hx. apply in_seq in Hx. lia.
Qed.

(** X12: [detect_outliers] never throws. The positions it returns are strictly
    increasing (so none is repeated), each is a position of the input, and
    the element at a returned position is never a NaN. *)
Theorem detect_outliers_indices (std_sort : list double -> list double)
    (data : list double) (threshold : double) :
  exists outliers,
    detect_outliers std_sort data threshold = Return outliers /\
    StronglySorted lt outliers /\
    (length outliers <= length data)%nat /\
    forall i, In i outliers -> (i < length data)%nat /\ not_nan (at_ data i).
Proof.
  unfold detect_outliers.
  destruct (size data <? 4)%Z.
  - exists []. split; [reflexivity|]. split; [constructor|].
    split; [cbn [length]; lia | intros i []].
  - destruct (percentile_returns std_sort data 25) as [q1 E1]; try reflexivity.
    destruct (percentile_returns std_sort data 75) as [q3 E3]; try reflexivity.
    rewrite E1, E3. cbn [bind]. rewrite outlier_fold. cbn [app].
    eexists. split; [reflexivity|]. split; [|split].
    + apply StronglySorted_filter, seq_StronglySorted.
    + etransitivity; [apply filter_length_le|]. now rewrite length_seq.
    + intros i Hi. apply filter_In in Hi as [Hi Hout]. apply in_seq in Hi.
      split; [lia|]. unfold not_nan.
      destruct (at_ data i =? at_ data i) eqn:E; [reflexivity|].
      destruct (nan_ltb_false (at_ data i) (q1 - threshold * (q3 - q1)) E) as [H1 _].
      destruct (nan_ltb_false (at_ data i) (q3 + threshold * (q3 - q1)) E) as [_ H2].
      rewrite H1, H2 in Hout. discriminate Hout.
Qed.

(** *** Monthly totals *)

Lemma monthly_totals_buckets (amounts : list double) (days_in_months : list Z) :
  amounts <> [] ->
  monthly_totals amounts days_in_months
  = map bucket_total (buckets amounts days_in_months).
Proof.
  intros Hne. unfold monthly_totals. destruct amounts as [|a amounts]; [congruence|].
  destruct days_in_months as [|n rest]; [reflexivity|].
  cbn [empty orb]. rewrite months_fold. reflexivity.
Qed.

Lemma buckets_firstn (bucket_sizes : list Z) :
  forall amounts,
    buckets (firstn (list_sum (map Z.to_nat bucket_sizes)) amounts) bucket_sizes
    = buckets amounts bucket_sizes.
Proof.
  induction bucket_sizes as [|n rest IH]; intros amounts; [reflexivity|].
  cbn [map buckets].
  change (list_sum (Z.to_nat n :: map Z.to_nat rest))
    with (Z.to_nat n + list_sum (map Z.to_nat rest))%nat.
  rewrite firstn_firstn, Nat.min_l by lia.
  rewrite skipn_firstn_comm.
  replace (Z.to_nat n + list_sum (map Z.to_nat rest) - Z.to_nat n)%nat
    with (list_sum (map Z.to_nat rest)) by lia.
  now rewrite IH.
Qed.

Lemma buckets_app (sizes1 sizes2 : list Z) :
  forall amounts,
    buckets amounts (sizes1 ++ sizes2)
    = buckets amounts sizes1
      ++ buckets (skipn (list_sum (map Z.to_nat sizes1)) amounts) sizes2.
Proof.
  induction sizes1 as [|n rest IH]; intros amounts; [reflexivity|].
  cbn [app map buckets].
  change (list_sum (Z.to_nat n :: map Z.to_nat rest))
    with (Z.to_nat n + list_sum (map Z.to_nat rest))%nat.
  rewrite IH, skipn_skipn.
  now rewrite (Nat.add_comm (list_sum _)).
Qed.

(** X13: Amounts past the last bucket have no influence: the totals are those of
    the amounts cut down to the total of the bucket sizes (negative sizes
    counting as 0), as long as that cut keeps at least one amount. *)
Theorem monthly_totals_ignores_surplus
    (amounts : list double) (days_in_months : list Z) :
  firstn (list_sum (map Z.to_nat days_in_months)) amounts <> [] ->
  monthly_totals (firstn (list_sum (map Z.to_nat days_in_months)) amounts)
    days_in_months
  = monthly_totals amounts days_in_months.
Proof.
  intros Hne.
  assert (Ha : amounts <> []) by (intros ->; now rewrite firstn_nil in Hne).
  rewrite (monthly_totals_buckets _ _ Hne), (monthly_totals_buckets _ _ Ha).
  now rewrite buckets_firstn.
Qed.

Lemma monthly_totals_ignores_surplus_witness :
  firstn (list_sum (map Z.to_nat [2; 1]%Z)) [1; 2; 3; 4; 5] <> [] /\
  monthly_totals (firstn (list_sum (map Z.to_nat [2; 1]%Z)) [1; 2; 3; 4; 5]) [2; 1]%Z
  = monthly_totals [1; 2; 3; 4; 5] [2; 1]%Z.
Proof.
  split; [discriminate|].
  apply (monthly_totals_ignores_surplus [1; 2; 3; 4; 5] [2; 1]%Z). discriminate.
Defined.

(** X14: Months can be totalled in two batches: while amounts remain after the
    first batch of months, the totals of all months are the totals of the
    first batch followed by the totals of the second batch over the
    remaining amounts. *)
Theorem monthly_totals_in_batches
    (amounts : list double) (months1 months2 : list Z) :
  skipn (list_sum (map Z.to_nat months1)) amounts <> [] ->
  monthly_totals amounts (months1 ++ months2)
  = monthly_totals amounts months1
    ++ monthly_totals (skipn (list_sum (map Z.to_nat months1)) amounts) months2.
Proof.
  intros Hne.
  assert (Ha : amounts <> []) by (intros ->; now rewrite skipn_nil in Hne).
  rewrite !(monthly_totals_buckets _ _ Ha), (monthly_totals_buckets _ _ Hne).
  now rewrite buckets_app, map_app.
Qed.

Lemma monthly_totals_in_batches_witness :
  skipn (list_sum (map Z.to_nat [2; 1]%Z)) [1; 2; 3; 4; 5] <> [] /\
  monthly_totals [1; 2; 3; 4; 5] ([2; 1] ++ [1; 3])%Z
  = monthly_totals [1; 2; 3; 4; 5] [2; 1]%Z
    ++ monthly_totals (skipn (list_sum (map Z.to_nat [2; 1]%Z)) [1; 2; 3; 4; 5])
         [1; 3]%Z.
Proof.
  split; [discriminate|].
  apply (monthly_totals_in_batches [1; 2; 3; 4; 5] [2; 1]%Z [1; 3]%Z). discriminate.
Defined.

(** *** Mode: when the traversal order does not matter *)

Section ModeTraversal.

Variable map_order : list (double * Z) -> list (double * Z).

Hypothesis map_order_visits_all : forall entries, Permutation (map_order entries) entries.

(** The entry on which the loop over the map ends. *)
Lemma mode_entry (data : list double) :
  data <> [] ->
  exists before after,
    map_order (count_frequency data)
    = before ++ (mode map_order data, frequency_of (mode map_order data) data) :: after /\
    In (mode map_order data) data /\
    Forall (fun e => (snd e < frequency_of (mode map_order data) data)%Z) before /\
    Forall (fun e => (snd e <= frequency_of (mode map_order data) data)%Z) after.
Proof.
  intros Hne. unfold mode. destruct data as [|d data]; [congruence|]. cbn [empty].
  set (dat := d :: data) in *.
  destruct (mode_scan (map_order (count_frequency dat)) (at_ dat 0) 0)
    as [(Hall & _)|(before & m & n & after & E1 & E2 & Hn & Hb & Ha)].
  - exfalso. rewrite Forall_forall in Hall.
    destruct (map_order_nonempty map_order map_order_visits_all dat Hne)
      as (key & Hkey & Hin).
    specialize (Hall _ Hin). cbn [snd] in Hall.
    pose proof (frequency_of_pos key dat Hkey). lia.
  - rewrite E2. cbn [fst].
    assert (Hm : In (m, n) (map_order (count_frequency dat)))
      by (rewrite E1; apply in_elt).
    apply (map_order_entry map_order map_order_visits_all) in Hm as [Hmin ->].
    exists before, after. repeat split; assumption.
Qed.

(** X15: When one value occurs strictly more often than every value that does
    not compare equal to it, [mode] returns it (up to [==]) whatever the
    order in which the hash map is traversed. *)
Theorem mode_unique_most_frequent (data : list double) (x : double) :
  In x data -> not_nan x ->
  (forall y, In y data -> (y =? x) = false ->
     (frequency_of y data < frequency_of x data)%Z) ->
  (mode map_order data =? x) = true.
Proof.
  intros Hx Hnan Huniq.
  assert (Hne : data <> []) by (intros ->; destruct Hx).
  destruct (mode_entry data Hne) as (before & after & E & Hm & Hb & Ha).
  set (m := mode map_order data) in *.
  destruct (m =? x) eqn:Emx; [reflexivity|]. exfalso.
  specialize (Huniq m Hm Emx).
  destruct (map_order_has_key map_order map_order_visits_all data x Hx Hnan)
    as (key & Hkey).
  rewrite E in Hkey. apply in_app_iff in Hkey as [Hkey|[Hkey|Hkey]].
  - rewrite Forall_forall in Hb. specialize (Hb _ Hkey). cbn [snd] in Hb. lia.
  - inversion Hkey. lia.
  - rewrite Forall_forall in Ha. specialize (Ha _ Hkey). cbn [snd] in Ha. lia.
Qed.

End ModeTraversal.

Lemma mode_unique_most_frequent_witness :
  (forall entries, Permutation (newest_first entries) entries) /\
  In 10 [20; 10; 20; 30; 10; 10] /\ not_nan 10 /\
  (mode newest_first [20; 10; 20; 30; 10; 10] =? 10) = true.
Proof.
  split; [exact newest_first_visits_all|].
  split; [right; now left|]. split; [reflexivity|].
  apply (mode_unique_most_frequent newest_first newest_first_visits_all
           [20; 10; 20; 30; 10; 10] 10).
  - right. now left.
  - reflexivity.
  - intros y Hy E. cbn [In] in Hy.
    repeat (destruct Hy as [<-|Hy]; [first [discriminate E | reflexivity]|]).
    destruct Hy.
Defined.

(** ** Properties of the text output and of [main] *)

Lemma append_assoc (a b c : String.string) : (a +++ b) +++ c = a +++ b +++ c.
Proof.
  induction a as [|ch a IH]; cbn [String.append]; [reflexivity | now rewrite IH].
Qed.

Lemma append_empty_r (a : String.string) : a +++ String.EmptyString = a.
Proof.
  induction a as [|ch a IH]; cbn [String.append]; [reflexivity | now rewrite IH].
Qed.

Lemma concat_snoc (texts : list String.string) (text : String.string) :
  String.concat "," (texts ++ [text])
  = String.concat "," texts
    +++ (if (0 <? length texts)%nat then "," else String.EmptyString) +++ text.
Proof.
  induction texts as [|a texts IH]; [reflexivity|].
  cbn [app]. destruct texts as [|b texts].
  - reflexivity.
  - change (String.concat "," (a :: (b :: texts) ++ [text]))
      with (a +++ "," +++ String.concat "," ((b :: texts) ++ [text])).
    rewrite IH.
    change (String.concat "," (a :: b :: texts))
      with (a +++ "," +++ String.concat "," (b :: texts)).
    cbn [length Nat.ltb Nat.leb]. now rewrite !append_assoc.
Qed.

Lemma write_element_ext {A : Type} (show : A -> String.string) (v v' : list A)
    (d : A) (positions : list nat) :
  (forall i, In i positions -> nth i v d = nth i v' d) ->
  forall oss,
    fold_left (write_element show v d) positions oss
    = fold_left (write_element show v' d) positions oss.
Proof.
  induction positions as [|i positions IH]; intros H oss; [reflexivity|].
  cbn [fold_left]. unfold write_element at 2 4. rewrite (H i) by now left.
  apply IH. intros j Hj. apply H. now right.
Qed.

(** The loop that puts a comma before every element but the first writes
    the elements joined by commas. *)
Lemma write_elements_concat {A : Type} (show : A -> String.string) (d : A)
    (v : list A) (oss : String.string) :
  fold_left (write_element show v d) (seq 0 (length v)) oss
  = oss +++ String.concat "," (map show v).
Proof.
  induction v as [|x v IH] using rev_ind.
  - cbn. now rewrite append_empty_r.
  - rewrite length_app. cbn [length]. rewrite Nat.add_1_r, seq_S, fold_left_app.
    rewrite (write_element_ext show (v ++ [x]) v d (seq 0 (length v)))
      by (intros i Hi; apply in_seq in Hi; apply app_nth1; lia).
    rewrite IH. cbn [fold_left Nat.add]. unfold write_element.
    rewrite nth_middle, map_app. cbn [map]. rewrite concat_snoc, length_map.
    now rewrite !append_assoc.
Qed.

(** X17: The JSON text of a moving-average result lists the values joined by
    commas between the brackets, with no comma after the last; the outliers
    of the combined output are listed the same way. *)
Theorem json_arrays_are_comma_separated
    (show_fixed : nat -> double -> String.string)
    (stats : StatisticsResult) (r ema : MovingAverageResult) (outliers : list nat) :
  MovingAverageResult_to_json show_fixed r
  = "{"
    +++ json_key "window_size" +++ show_int (window_size r) +++ ","
    +++ json_key "current_average" +++ show_fixed 2%nat (current_average r) +++ ","
    +++ json_key "values" +++ "["
    +++ String.concat "," (map (show_fixed 2%nat) (values r)) +++ "]}" /\
  create_json_output show_fixed stats r ema outliers
  = "{" +++ newline
    +++ "  " +++ quote +++ "success" +++ quote +++ ": true," +++ newline
    +++ "  " +++ quote +++ "statistics" +++ quote +++ ": "
    +++ StatisticsResult_to_json show_fixed stats +++ "," +++ newline
    +++ "  " +++ quote +++ "simple_moving_average" +++ quote +++ ": "
    +++ MovingAverageResult_to_json show_fixed r +++ "," +++ newline
    +++ "  " +++ quote +++ "exponential_moving_average" +++ quote +++ ": "
    +++ MovingAverageResult_to_json show_fixed ema +++ "," +++ newline
    +++ "  " +++ quote +++ "outliers" +++ quote +++ ": ["
    +++ String.concat "," (map (fun i => show_int (Z.of_nat i)) outliers)
    +++ "]," +++ newline
    +++ "  " +++ quote +++ "outlier_count" +++ quote +++ ": "
    +++ show_int (Z.of_nat (length outliers)) +++ newline
    +++ "}" +++ newline.
Proof.
  split.
  - unfold MovingAverageResult_to_json. rewrite write_elements_concat.
    now rewrite !append_assoc.
  - unfold create_json_output, size. rewrite write_elements_concat.
    now rewrite !append_assoc.
Qed.

(** *** The command line *)

Lemma read_values_all (cin_value : nat -> option double) (turns : nat) :
  forall i amounts,
    (forall j, (j < turns)%nat -> cin_value (i + j)%nat <> None) ->
    read_values cin_value turns i amounts
    = inl (amounts
           ++ map (fun i => match cin_value i with Some value => value | None => 0 end)
                (seq i turns)).
Proof.
  induction turns as [|turns IH]; intros i amounts H; cbn [read_values seq map].
  - now rewrite app_nil_r.
  - pose proof (H O ltac:(lia)) as H0. rewrite Nat.add_0_r in H0.
    destruct (cin_value i) as [value|]; [|congruence].
    rewrite IH, <- app_assoc; [reflexivity|].
    intros j Hj. replace (S i + j)%nat with (i + S j)%nat by lia. apply H. lia.
Qed.

Lemma read_values_first_failure (cin_value : nat -> option double) (turns : nat) :
  forall i amounts k,
    (k < turns)%nat -> cin_value (i + k)%nat = None ->
    (forall j, (j < k)%nat -> cin_value (i + j)%nat <> None) ->
    read_values cin_value turns i amounts = inr (i + k)%nat.
Proof.
  induction turns as [|turns IH]; intros i amounts k Hk Hnone Hsome; [lia|].
  cbn [read_values]. destruct k as [|k].
  - rewrite Nat.add_0_r in *. now rewrite Hnone.
  - pose proof (Hsome O ltac:(lia)) as H0. rewrite Nat.add_0_r in H0.
    destruct (cin_value i) as [value|]; [|congruence].
    replace (i + S k)%nat with (S i + k)%nat in * by lia.
    apply IH; [lia | exact Hnone |].
    intros j Hj. replace (S i + j)%nat with (i + S j)%nat by lia. apply Hsome. lia.
Qed.

Lemma read_values_inl (cin_value : nat -> option double) (turns : nat) :
  forall i amounts l,
    read_values cin_value turns i amounts = inl l ->
    forall j, (j < turns)%nat -> cin_value (i + j)%nat <> None.
Proof.
  induction turns as [|turns IH]; intros i amounts l H j Hj; [lia|].
  cbn [read_values] in H. destruct (cin_value i) as [value|] eqn:E; [|discriminate H].
  destruct j as [|j]; [rewrite Nat.add_0_r; congruence|].
  replace (i + S j)%nat with (S i + j)%nat by lia.
  apply (IH _ _ _ H). lia.
Qed.

Lemma calculate_all_returns
    (std_sort : list double -> list double)
    (map_order : list (double * Z) -> list (double * Z))
    (data : list double) :
  exists stats, calculate_all std_sort map_order data = Return stats.
Proof.
  destruct data as [|d data]; [now eexists|].
  destruct (calculate_all_non_empty std_sort map_order (d :: data))
    as (q1 & q3 & _ & _ & E); [discriminate | eexists; exact E].
Qed.

Lemma detect_outliers_returns (std_sort : list double -> list double)
    (data : list double) (threshold : double) :
  exists outliers, detect_outliers std_sort data threshold = Return outliers.
Proof.
  unfold detect_outliers. destruct (size data <? 4)%Z; [now eexists|].
  destruct (percentile_returns std_sort data 25) as [q1 E1]; try reflexivity.
  destruct (percentile_returns std_sort data 75) as [q3 E3]; try reflexivity.
  rewrite E1, E3. now eexists.
Qed.

Section MainProperties.

Variable std_sort : list double -> list double.
Variable map_order : list (double * Z) -> list (double * Z).
Variable show_fixed : nat -> double -> String.string.
Variable reserve_throws : Z -> option String.string.

(** No call of the analysis throws [std::invalid_argument]: the two
    percentiles asked for are in range. *)
Lemma analyse_returns (n : Z) (amounts : list double) :
  exists stats outliers,
    calculate_all std_sort map_order amounts = Return stats /\
    detect_outliers std_sort amounts 1.5 = Return outliers /\
    analyse std_sort map_order show_fixed n amounts
    = Return (create_json_output show_fixed stats
                (moving_average amounts (Z.min 7 n))
                (exponential_moving_average amounts 0.3) outliers).
Proof.
  destruct (calculate_all_returns std_sort map_order amounts) as [stats Es].
  destruct (detect_outliers_returns std_sort amounts 1.5) as [outliers Eo].
  exists stats, outliers. split; [exact Es|]. split; [exact Eo|].
  unfold analyse, detect_outliers_default. now rewrite Es, Eo.
Qed.

(** When [amounts.reserve(n)] throws, the handler writes the [what()] of the
    exception and [main] ends with status 1, whatever values wait on the
    input. *)
Lemma run_storage_refused (n : Z) (cin_value : nat -> option double)
    (what : String.string) :
  (0 < n)%Z -> reserve_throws n = Some what ->
  run std_sort map_order show_fixed reserve_throws (Some n) cin_value
  = mkProcessResult (create_error_json what) String.EmptyString 1.
Proof.
  intros Hn Hres. unfold run. destruct (Z.leb_spec n 0); [lia|]. now rewrite Hres.
Qed.

(** X18: [main] ends with status 0 or 1. It ends with 0 exactly when its option
    asks for help or version, or when a count above 0 is read, the storage
    for that many values is had, and every one of that many values is
    read. *)
Theorem main_exit_status (argv : list String.string) (cin_n : option Z)
    (cin_value : nat -> option double) :
  let r := main std_sort map_order show_fixed reserve_throws argv cin_n cin_value in
  (exit_status r = 0%Z \/ exit_status r = 1%Z) /\
  (exit_status r = 0%Z
   <-> asks_help_or_version argv = true \/
       exists n, cin_n = Some n /\ (0 < n)%Z /\ reserve_throws n = None /\
                 forall i, (i < Z.to_nat n)%nat -> cin_value i <> None).
Proof.
  cbv zeta.
  assert (Hrun : let r := run std_sort map_order show_fixed reserve_throws
                            cin_n cin_value in
                 (exit_status r = 0%Z \/ exit_status r = 1%Z) /\
                 (exit_status r = 0%Z
                  <-> exists n, cin_n = Some n /\ (0 < n)%Z /\
                        reserve_throws n = None /\
                        forall i, (i < Z.to_nat n)%nat -> cin_value i <> None)).
  { cbv zeta. unfold run. destruct cin_n as [n|].
    - destruct (Z.leb_spec n 0) as [Hle|Hgt].
      + split; [now right|]. split; [discriminate|].
        intros (n' & E & Hn & _). inversion E. lia.
      + destruct (reserve_throws n) as [what|] eqn:Hres.
        * split; [now right|]. split; [discriminate|].
          intros (n' & E & _ & Hres' & _). inversion E; subst n'. congruence.
        * destruct (read_values cin_value (Z.to_nat n) 0 []) as [amounts|i] eqn:Er.
          -- destruct (analyse_returns n amounts) as (stats & outliers & _ & _ & ->).
             split; [now left|]. split; [|reflexivity]. intros _.
             exists n. split; [reflexivity|]. split; [exact Hgt|].
             split; [exact Hres|].
             intros i Hi. apply (read_values_inl _ _ _ _ _ Er i Hi).
          -- split; [now right|]. split; [discriminate|].
             intros (n' & E & _ & _ & Hall). inversion E; subst n'.
             rewrite (read_values_all cin_value (Z.to_nat n) 0 []) in Er
               by (intros j Hj; apply Hall; exact Hj).
             discriminate Er.
    - split; [now right|]. split; [discriminate|].
      intros (n & E & _). discriminate E. }
  cbv zeta in Hrun. unfold main, asks_help_or_version.
  destruct argv as [|prog [|arg rest]].
  - destruct Hrun as [H1 H2]. split; [exact H1|]. rewrite H2.
    split; [now right | intros [H|H]; [discriminate H | exact H]].
  - destruct Hrun as [H1 H2]. split; [exact H1|]. rewrite H2.
    split; [now right | intros [H|H]; [discriminate H | exact H]].
  - destruct (is_help arg); cbn [orb].
    + split; [now left|]. split; [now left | reflexivity].
    + destruct (is_version arg).
      * split; [now left|]. split; [now left | reflexivity].
      * destruct Hrun as [H1 H2]. split; [exact H1|]. rewrite H2.
        split; [now right | intros [H|H]; [discriminate H | exact H]].
Qed.

(** X19: When the count is read and is above 0 and the storage for that many
    values is had, but a value cannot be read, [main] names the position of
    the first value that failed, writes nothing else, and ends with status
    1. *)
Theorem main_reports_first_unread_value (argv : list String.string) (n : Z)
    (cin_value : nat -> option double) (i : nat) :
  asks_help_or_version argv = false ->
  (0 < n)%Z -> reserve_throws n = None ->
  (i < Z.to_nat n)%nat ->
  cin_value i = None ->
  (forall j, (j < i)%nat -> cin_value j <> None) ->
  main std_sort map_order show_fixed reserve_throws argv (Some n) cin_value
  = mkProcessResult
      (create_error_json ("Failed to read value at index " +++ show_int (Z.of_nat i)))
      String.EmptyString 1.
Proof.
  intros Hflag Hn Hres Hi Hnone Hsome.
  assert (Hrun : run std_sort map_order show_fixed reserve_throws (Some n) cin_value
                 = mkProcessResult
                     (create_error_json
                        ("Failed to read value at index " +++ show_int (Z.of_nat i)))
                     String.EmptyString 1).
  { unfold run. destruct (Z.leb_spec n 0); [lia|]. rewrite Hres.
    now rewrite (read_values_first_failure cin_value (Z.to_nat n) 0 [] i Hi Hnone Hsome). }
  unfold main. unfold asks_help_or_version in Hflag.
  destruct argv as [|prog [|arg rest]]; try exact Hrun.
  apply orb_false_iff in Hflag as [-> ->]. exact Hrun.
Qed.

(** X20: When a count [n] above 0 is read, the storage for [n] values is had
    and [n] values are read, [main] writes the combined JSON of the four
    analyses of those values and ends with status 0: the summary, the simple
    moving average with window min(7, n), which has n - min(7, n) + 1
    values, the exponential moving average with alpha 0.3, which has n
    values, and the outliers at threshold 1.5. *)
Theorem main_analyses_the_values (argv : list String.string) (n : Z)
    (cin_value : nat -> option double) :
  asks_help_or_version argv = false ->
  (0 < n)%Z -> reserve_throws n = None ->
  (forall i, (i < Z.to_nat n)%nat -> cin_value i <> None) ->
  let amounts := values_read cin_value (Z.to_nat n) in
  let sma := moving_average amounts (Z.min 7 n) in
  let ema := exponential_moving_average amounts 0.3 in
  exists stats outliers,
    calculate_all std_sort map_order amounts = Return stats /\
    detect_outliers std_sort amounts 1.5 = Return outliers /\
    main std_sort map_order show_fixed reserve_throws argv (Some n) cin_value
    = mkProcessResult (create_json_output show_fixed stats sma ema outliers)
        String.EmptyString 0 /\
    window_size sma = Z.min 7 n /\
    Z.of_nat (length (values sma)) = (n - Z.min 7 n + 1)%Z /\
    Z.of_nat (length (values ema)) = n.
Proof.
  intros Hflag Hn Hres Hall. cbv zeta.
  set (amounts := values_read cin_value (Z.to_nat n)).
  assert (Hlen : length amounts = Z.to_nat n)
    by (unfold amounts, values_read; now rewrite length_map, length_seq).
  assert (Hne : amounts <> [])
    by (intros E; rewrite E in Hlen; cbn [length] in Hlen; lia).
  destruct (analyse_returns n amounts) as (stats & outliers & Es & Eo & Ea).
  exists stats, outliers. split; [exact Es|]. split; [exact Eo|]. split; [|split; [|split]].
  - assert (Hrun : run std_sort map_order show_fixed reserve_throws (Some n) cin_value
                   = mkProcessResult
                       (create_json_output show_fixed stats
                          (moving_average amounts (Z.min 7 n))
                          (exponential_moving_average amounts 0.3) outliers)
                       String.EmptyString 0).
    { unfold run. destruct (Z.leb_spec n 0); [lia|]. rewrite Hres.
      rewrite (read_values_all cin_value (Z.to_nat n) 0 [])
        by (intros j Hj; apply Hall; exact Hj).
      cbn [app]. fold (values_read cin_value (Z.to_nat n)). fold amounts.
      now rewrite Ea. }
    unfold main. unfold asks_help_or_version in Hflag.
    destruct argv as [|prog [|arg rest]]; try exact Hrun.
    apply orb_false_iff in Hflag as [-> ->]. exact Hrun.
  - rewrite (moving_average_values amounts (Z.min 7 n) Hne) by lia.
    cbn [window_size]. unfold size. lia.
  - rewrite (moving_average_values amounts (Z.min 7 n) Hne) by lia.
    cbn [values]. rewrite length_map, length_seq. unfold size. lia.
  - rewrite exponential_moving_average_eq.
    destruct amounts as [|a amounts']; [congruence|]. cbn [empty orb].
    change ((0.3 <=? 0) || (1 <? 0.3)) with false. cbv iota zeta. cbn [values].
    destruct (ema_fold_spec (a :: amounts') 0.3 (length (a :: amounts') - 1))
      as (Hl & _). cbv zeta in Hl. rewrite Hl. cbn [length] in *. lia.
Qed.

End MainProperties.

Lemma detect_outliers_indices_witness :
  exists outliers,
    detect_outliers insertion_sort [10; 20; 30; 40; 50; 200] 1.5 = Return outliers /\
    StronglySorted lt outliers /\
    (length outliers <= length [10; 20; 30; 40; 50; 200])%nat /\
    forall i, In i outliers ->
      (i < length [10; 20; 30; 40; 50; 200])%nat /\
      not_nan (at_ [10; 20; 30; 40; 50; 200] i).
Proof.
  apply (detect_outliers_indices insertion_sort [10; 20; 30; 40; 50; 200] 1.5).
Defined.

Lemma three_values_read (i : nat) : (i < Z.to_nat 3)%nat -> three_values i <> None.
Proof.
  intros Hi. destruct i as [|[|[|i]]]; cbn; try discriminate.
  cbn in Hi. lia.
Defined.

Lemma main_exit_status_witness :
  exit_status (main insertion_sort oldest_first show_placeholder ample_storage
                 ["calc_engine"] (Some 3%Z) three_values) = 0%Z.
Proof.
  apply (main_exit_status insertion_sort oldest_first show_placeholder ample_storage
           ["calc_engine"] (Some 3%Z) three_values).
  right. exists 3%Z. split; [reflexivity|]. split; [lia|]. split; [reflexivity|].
  exact three_values_read.
Defined.

Lemma main_reports_first_unread_value_witness :
  asks_help_or_version ["calc_engine"] = false /\ (0 < 3)%Z /\
  scarce_storage 3 = None /\
  (1 < Z.to_nat 3)%nat /\ second_unreadable 1 = None /\
  main insertion_sort oldest_first show_placeholder scarce_storage ["calc_engine"]
    (Some 3%Z) second_unreadable
  = mkProcessResult
      (create_error_json ("Failed to read value at index " +++ show_int (Z.of_nat 1)))
      String.EmptyString 1.
Proof.
  split; [reflexivity|]. split; [lia|]. split; [reflexivity|].
  split; [cbn; lia|]. split; [reflexivity|].
  apply (main_reports_first_unread_value insertion_sort oldest_first show_placeholder
           scarce_storage ["calc_engine"] 3 second_unreadable 1).
  - reflexivity.
  - lia.
  - reflexivity.
  - cbn. lia.
  - reflexivity.
  - intros j Hj. destruct j as [|j]; [discriminate | lia].
Defined.

Lemma main_analyses_the_values_witness :
  asks_help_or_version ["calc_engine"] = false /\ (0 < 3)%Z /\
  scarce_storage 3 = None /\
  exists stats outliers,
    calculate_all insertion_sort oldest_first (values_read three_values (Z.to_nat 3))
    = Return stats /\
    detect_outliers insertion_sort (values_read three_values (Z.to_nat 3)) 1.5
    = Return outliers /\
    main insertion_sort oldest_first show_placeholder scarce_storage ["calc_engine"]
      (Some 3%Z) three_values
    = mkProcessResult
        (create_json_output show_placeholder stats
           (moving_average (values_read three_values (Z.to_nat 3)) (Z.min 7 3))
           (exponential_moving_average (values_read three_values (Z.to_nat 3)) 0.3)
           outliers)
        String.EmptyString 0 /\
    window_size (moving_average (values_read three_values (Z.to_nat 3)) (Z.min 7 3))
    = Z.min 7 3 /\
    Z.of_nat (length (values (moving_average
                                (values_read three_values (Z.to_nat 3)) (Z.min 7 3))))
    = (3 - Z.min 7 3 + 1)%Z /\
    Z.of_nat (length (values (exponential_moving_average
                                (values_read three_values (Z.to_nat 3)) 0.3)))
    = 3%Z.
Proof.
  split; [reflexivity|]. split; [lia|]. split; [reflexivity|].
  apply (main_analyses_the_values insertion_sort oldest_first show_placeholder
           scarce_storage ["calc_engine"] 3 three_values).
  - reflexivity.
  - lia.
  - reflexivity.
  - exact three_values_read.
Defined.

(** Runs with the stand-in formatting: the version, a count of 0, no count,
    and a count of 2147483647 for which the storage is refused before any
    value is read. *)
Example main_example :
  main insertion_sort oldest_first show_placeholder ample_storage
    ["calc_engine"; "-v"] None three_values
  = mkProcessResult version_text String.EmptyString 0 /\
  exit_status (main insertion_sort oldest_first show_placeholder ample_storage
                 ["calc_engine"] (Some 0%Z) three_values) = 1%Z /\
  stdout (main insertion_sort oldest_first show_placeholder ample_storage
            ["calc_engine"] None three_values)
  = create_error_json "Failed to read number of values" /\
  main insertion_sort oldest_first show_placeholder scarce_storage
    ["calc_engine"] (Some 2147483647%Z) (fun _ => Some 1)
  = mkProcessResult (create_error_json "std::bad_alloc") String.EmptyString 1.
Proof. repeat split. Qed.
